(** * msawangwan/weather: the cache-or-fetch protocol and the temperature
  aggregation engine, embedded from [db/rows.go], [api/api.go] and the
  HTTP handlers of package [main]; with them the statistics, the accounts
  and bookmarks, and the connection of [db/conn.go].

  Conventions of the embedding.
  - Go [float64] is Rocq's primitive binary64 [float]; Go [int] and [int64]
    are [Z] (the wrap-around is written out where the code does arithmetic
    on a database value).
  - Go maps are stdpp [gmap]s.  A read of a missing key yields the zero
    value; an assignment into a nil map is a run-time panic.  Functions that
    can panic return [option], [None] being the panic.
  - A Go [error] is [option Err], [None] being [nil].
  - The database behind [GlobalConn] is a pair of tables; the outcome of
    each driver call that can fail is an input of the model. *)

From Stdlib Require Import ZArith Floats Uint63.
From stdpp Require Import gmap strings list fin_maps.

Open Scope Z_scope.

(** ** Go values *)

Module Go.

(** [float64(n)] for an [int] or [int64] [n], [- 2 ^ 63 < n < 2 ^ 63]. *)
Definition float64_of_int (n : Z) : float :=
  if n <? 0 then PrimFloat.opp (PrimFloat.of_uint63 (Uint63.of_Z (- n)))
  else PrimFloat.of_uint63 (Uint63.of_Z n).

(** Two's complement wrap-around of [int64] arithmetic. *)
Definition wrap64 (n : Z) : Z := (n + 2 ^ 63) mod 2 ^ 64 - 2 ^ 63.

(** An [error] value; [nil] is [None]. *)
Inductive Err : Type :=
| ErrNoRows                 (* sql.ErrNoRows *)
| ErrOther (msg : string).  (* any other error of the driver or the client *)

Definition error : Type := option Err.

Definition Error (e : Err) : string :=
  match e with
  | ErrNoRows => "sql: no rows in result set"
  | ErrOther msg => msg
  end.

(** [database/sql]'s nullable columns. *)
Record NullInt64 : Type := { Int64 : Z; Int64Valid : bool }.
Record NullFloat64 : Type := { Float64 : float; Float64Valid : bool }.
Record NullString : Type := { String : string; StringValid : bool }.

(** [time.Time], through the two observations the code makes of it: the
    instant (nanoseconds since the epoch, what [Sub] subtracts) and the
    civil date [Date()] reports. *)
Record Time : Type := { UnixNano : Z; Year : Z; Month : Z; Day : Z }.

Definition Date (t : Time) : Z * Z * Z := (Year t, Month t, Day t).

(** [time.Duration] is an [int64] count of nanoseconds; [Sub] saturates. *)
Definition Duration : Type := Z.
Definition Minute : Duration := 60 * 1000000000.
Definition minDuration : Duration := - 2 ^ 63.
Definition maxDuration : Duration := 2 ^ 63 - 1.

Definition Sub (t u : Time) : Duration :=
  let d := UnixNano t - UnixNano u in
  if d <? minDuration then minDuration
  else if maxDuration <? d then maxDuration
  else d.

(** [Duration.Minutes]: [float64(d / Minute) + float64(d % Minute) / (60 * 1e9)],
    with Go's truncated division. *)
Definition Minutes (d : Duration) : float :=
  let min := Z.quot d Minute in
  let nsec := Z.rem d Minute in
  (float64_of_int min + float64_of_int nsec / 60000000000)%float.

End Go.

Import Go.

(** ** Package [db]: the nested temperature result *)

Module Db.

(** [TemperatureQueries], [DailyTemperatureQuery], [MonthlyTemperatureQuery],
    [YearlyTemperatureQuery] and [LocationTemperatureQueryResult]. *)
Abbreviation TemperatureQueries := (list float).
Abbreviation DailyTemperatureQuery := (gmap Z (list float)).
Abbreviation MonthlyTemperatureQuery := (gmap Z (gmap Z (list float))).
Abbreviation YearlyTemperatureQuery := (gmap Z (gmap Z (gmap Z (list float)))).
Abbreviation LocationTemperatureQueryResult :=
  (gmap string (gmap Z (gmap Z (gmap Z (list float))))).

(** Reads [q[city]], [q[city][y]], [q[city][y][mo]]: a missing key reads as
    the nil map, which in turn reads as the empty map. *)
Definition at_city (q : LocationTemperatureQueryResult) (city : string)
  : YearlyTemperatureQuery := default ∅ (q !! city).

Definition at_year (q : LocationTemperatureQueryResult) (city : string) (y : Z)
  : MonthlyTemperatureQuery := default ∅ (at_city q city !! y).

Definition at_month (q : LocationTemperatureQueryResult) (city : string) (y mo : Z)
  : DailyTemperatureQuery := default ∅ (at_year q city y !! mo).

(** [q[city][y][mo][d]] read as a value: the nil slice when absent. *)
Definition at_day (q : LocationTemperatureQueryResult) (city : string) (y mo d : Z)
  : TemperatureQueries := default [] (at_month q city y mo !! d).

(** The leaf stored at a path, if the path exists. *)
Definition leaf (q : LocationTemperatureQueryResult) (city : string) (y mo d : Z)
  : option TemperatureQueries :=
  q !! city ≫= λ ys, ys !! y ≫= λ ms, ms !! mo ≫= λ ds, ds !! d.

(** The day map stored for a month, if the month exists. *)
Definition month_at (q : LocationTemperatureQueryResult) (city : string) (y mo : Z)
  : option DailyTemperatureQuery :=
  q !! city ≫= λ ys, ys !! y ≫= λ ms, ms !! mo.

(** The guarded assignment of the innermost level, on the day map it
    acts on: [if _, initialised := ds[d]; !initialised { ds[d] = TemperatureQueries{} }]. *)
Definition ensure_day (d : Z) (ds : DailyTemperatureQuery) : DailyTemperatureQuery :=
  match ds !! d with
  | Some _ => ds
  | None => <[d := []]> ds
  end.

(** Assignments [q[city] = v], [q[city][y] = v], [q[city][y][mo] = v] and
    [q[city][y][mo][d] = v].  The map assigned into is the one the
    enclosing index expression evaluates to; every map stored in the
    structure is a non-nil literal, so that map is nil exactly when a key
    on the way is missing, and the assignment panics then. *)
Definition assign_city (q : LocationTemperatureQueryResult) (city : string)
    (v : YearlyTemperatureQuery) : option LocationTemperatureQueryResult :=
  Some (<[city := v]> q).

Definition assign_year (q : LocationTemperatureQueryResult) (city : string) (y : Z)
    (v : MonthlyTemperatureQuery) : option LocationTemperatureQueryResult :=
  ys ← q !! city;
  Some (<[city := <[y := v]> ys]> q).

Definition assign_month (q : LocationTemperatureQueryResult) (city : string) (y mo : Z)
    (v : DailyTemperatureQuery) : option LocationTemperatureQueryResult :=
  ys ← q !! city;
  ms ← ys !! y;
  Some (<[city := <[y := <[mo := v]> ms]> ys]> q).

Definition assign_day (q : LocationTemperatureQueryResult) (city : string) (y mo d : Z)
    (v : TemperatureQueries) : option LocationTemperatureQueryResult :=
  ys ← q !! city;
  ms ← ys !! y;
  ds ← ms !! mo;
  Some (<[city := <[y := <[mo := <[d := v]> ds]> ms]> ys]> q).

(** [InitialiseForDate]: four guarded assignments, outermost first. *)
Definition InitialiseForDate (q : LocationTemperatureQueryResult)
    (city : string) (y mo d : Z) : option LocationTemperatureQueryResult :=
  q ← (match q !! city with
       | Some _ => Some q
       | None => assign_city q city ∅
       end);
  q ← (match at_city q city !! y with
       | Some _ => Some q
       | None => assign_year q city y ∅
       end);
  q ← (match at_year q city y !! mo with
       | Some _ => Some q
       | None => assign_month q city y mo ∅
       end);
  match at_month q city y mo !! d with
  | Some _ => Some q
  | None => assign_day q city y mo d []
  end.

(** [Add]: [q[city][y][mo][d] = append(q[city][y][mo][d], temp)]. *)
Definition Add (q : LocationTemperatureQueryResult) (temp : float)
    (city : string) (y mo d : Z) : option LocationTemperatureQueryResult :=
  assign_day q city y mo d (at_day q city y mo d ++ [temp]).

(** *** The temperature reports *)

(** [TemperatureQueryFilter] and its exported values. *)
Definition TemperatureQueryFilter : Type := string.
Definition FilterLows : TemperatureQueryFilter := "lows".
Definition FilterHighs : TemperatureQueryFilter := "highs".
Definition FilterAverages : TemperatureQueryFilter := "avgs".

(** A row of the join of [locations] and [weather] that the two reports
    select from, as the driver delivers it: the columns
    [locations.city_name], [locations.id], [weather.at_time],
    [weather.temp_low], [weather.temp_high] and [weather.location_id]. *)
Record JoinedRow : Type := {
  cname : NullString;
  id : NullInt64;
  t : Time;
  templo : NullFloat64;
  temphi : NullFloat64;
  lid : NullInt64
}.

(** What [rows.Scan] yields for one row of the cursor. *)
Inductive Scanned : Type :=
| ScanOk (r : JoinedRow)
| ScanErr (e : Err).

(** What [GlobalConn.Query] yields: an error, or the cursor's rows in the
    order the engine delivers them. *)
Inductive Cursor : Type :=
| QueryErr (e : Err)
| Rows (rows : list Scanned).

(** The pair a report returns; a nil map is [None]. *)
Definition Report : Type := option LocationTemperatureQueryResult * error.

(** The column [weather.%s] selects for [param]. *)
Inductive Param : Type := temp_low | temp_high.

Definition column (param : Param) (r : JoinedRow) : NullFloat64 :=
  match param with
  | temp_low => templo r
  | temp_high => temphi r
  end.

(** The body of the [for rows.Next()] loop of [MonthlyTemperature]. *)
Fixpoint MonthlyTemperature_rows (param : Param) (rows : list Scanned)
    (temps : LocationTemperatureQueryResult) : option Report :=
  match rows with
  | [] => Some (Some temps, None)
  | ScanErr e :: _ => Some (None, Some e)
  | ScanOk r :: rows =>
      let temp := column param r in
      if negb (StringValid (cname r)) then MonthlyTemperature_rows param rows temps
      else
        let '(y, m, d) := Date (t r) in
        let mo := m in
        let city := String (cname r) in
        temps ← InitialiseForDate temps city y mo d;
        if negb (Float64Valid temp) then MonthlyTemperature_rows param rows temps
        else
          temps ← Add temps (Float64 temp) city y mo d;
          MonthlyTemperature_rows param rows temps
  end.

(** [MonthlyTemperature]: the switch on the filter, the query, the loop.
    [fmt.Errorf] is given the message as its format; for a filter without a
    [%] the error reads as below. *)
Definition MonthlyTemperature (f : TemperatureQueryFilter) (conn : Cursor)
    : option Report :=
  let run (param : Param) :=
    match conn with
    | QueryErr e => Some (None, Some e)
    | Rows rows => MonthlyTemperature_rows param rows ∅
    end in
  if decide (f = FilterLows) then run temp_low
  else if decide (f = FilterHighs) then run temp_high
  else Some (None, Some (ErrOther ("invalid reporting filter: " +:+ f))).

(** The first loop of [MonthlyAverageTemperature]: the mid temperature of
    every row, bucketed by day.  [None] is a panic; [Some (inl e)] is the
    early [return nil, err]. *)
Fixpoint dailyAvgTemps_rows (rows : list Scanned)
    (dailyAvgTemps : LocationTemperatureQueryResult)
    : option (Err + LocationTemperatureQueryResult) :=
  match rows with
  | [] => Some (inr dailyAvgTemps)
  | ScanErr e :: _ => Some (inl e)
  | ScanOk r :: rows =>
      if negb (StringValid (cname r)) then dailyAvgTemps_rows rows dailyAvgTemps
      else
        let '(y, m, d) := Date (t r) in
        let mo := m in
        let city := String (cname r) in
        dailyAvgTemps ← InitialiseForDate dailyAvgTemps city y mo d;
        if negb (Float64Valid (templo r)) || negb (Float64Valid (temphi r))
        then dailyAvgTemps_rows rows dailyAvgTemps
        else
          let mid := ((Float64 (templo r) + Float64 (temphi r)) / 2)%float in
          dailyAvgTemps ← Add dailyAvgTemps mid city y mo d;
          dailyAvgTemps_rows rows dailyAvgTemps
  end.

(** The accumulators [avg], [samplesPerMonth] and [samplesPerDay] of the
    averaging loop. *)
Record Accum : Type := { avg : float; samplesPerMonth : Z; samplesPerDay : Z }.

(** [for _, temp := range day { samplesPerDay++; avg += temp }] *)
Definition range_day (day : TemperatureQueries) (a : Accum) : Accum :=
  foldl (λ a temp,
           {| avg := (avg a + temp)%float;
              samplesPerMonth := samplesPerMonth a;
              samplesPerDay := samplesPerDay a + 1 |}) a day.

(** [for _, day := range month { samplesPerMonth++; ... }].  Go ranges over
    a map in an unspecified order; the model takes the order of
    [map_fold]. *)
Definition range_month (month : DailyTemperatureQuery) : Accum :=
  map_fold (λ _ day a,
              range_day day {| avg := avg a;
                               samplesPerMonth := samplesPerMonth a + 1;
                               samplesPerDay := samplesPerDay a |})
           {| avg := 0%float; samplesPerMonth := 0; samplesPerDay := 0 |} month.

(** The value the loop stores for a month: [avg /= float64(samplesPerDay)]
    and then [avg /= float64(samplesPerMonth)]. *)
Definition month_avg (month : DailyTemperatureQuery) : float :=
  let a := range_month month in
  let avg := (avg a / float64_of_int (samplesPerDay a))%float in
  let avg := (avg / float64_of_int (samplesPerMonth a))%float in
  avg.

(** All the samples of a month, its days in the order of [map_to_list]. *)
Definition month_samples (month : DailyTemperatureQuery) : list float :=
  concat (map_to_list month).*2.

(** The second loop: one value per (city, year, month), stored at day 0. *)
Definition monthlyAvgTemps_of (dailyAvgTemps : LocationTemperatureQueryResult)
    : option LocationTemperatureQueryResult :=
  map_fold (λ c cities acc,
    map_fold (λ y year acc,
      map_fold (λ m month acc,
        monthlyAvgTemps ← acc;
        let avg := month_avg month in
        monthlyAvgTemps ← InitialiseForDate monthlyAvgTemps c y m 0;
        Add monthlyAvgTemps avg c y m 0) acc year) acc cities)
    (Some ∅) dailyAvgTemps.

(** [MonthlyAverageTemperature]; its variadic [months] is never read. *)
Definition MonthlyAverageTemperature (conn : Cursor) : option Report :=
  match conn with
  | QueryErr e => Some (None, Some e)
  | Rows rows =>
      r ← dailyAvgTemps_rows rows ∅;
      match r with
      | inl e => Some (None, Some e)
      | inr dailyAvgTemps =>
          monthlyAvgTemps ← monthlyAvgTemps_of dailyAvgTemps;
          Some (Some monthlyAvgTemps, None)
      end
  end.

(** The column a valid filter selects. *)
Definition selected (f : TemperatureQueryFilter) (r : JoinedRow) : NullFloat64 :=
  if decide (f = FilterHighs) then temphi r else templo r.



(** *** The tables and the rows scanned from them *)

(** [LocationRow], a row of [locations (id, city_name, query_count)]. *)
Record LocationRow : Type := {
  ID : NullInt64;
  QueryCount : NullInt64;
  CityName : NullString
}.

(** [WeatherRow], a row of
    [weather (location_id, labels, temp_high, temp_low, at_time)].  The two
    temperature columns are [real]; the rounding to single precision of a
    value on its way through the store is not modelled. *)
Record WeatherRow : Type := {
  LocationRowID : NullInt64;
  TempHigh : NullFloat64;
  TempLow : NullFloat64;
  Labels : list string;
  AtTime : Time
}.

(** The store behind [GlobalConn]: the committed contents of both tables. *)
Record Database : Type := {
  locations : list LocationRow;
  weather : list WeatherRow
}.

(** [QueryResult] is [map[string]interface{}]; the values stored in it are
    pointers to one of the two row types. *)
Inductive RowValue : Type :=
| LocationValue (lr : LocationRow)
| WeatherValue (wr : WeatherRow).

Abbreviation QueryResult := (gmap string RowValue).

#[global] Instance Err_eq_dec : EqDecision Err.
Proof. solve_decision. Defined.

Definition null_int64 : NullInt64 := {| Int64 := 0; Int64Valid := false |}.
Definition null_float64 : NullFloat64 := {| Float64 := 0; Float64Valid := false |}.
Definition null_string : NullString := {| String := ""; StringValid := false |}.
Definition int64_of (n : Z) : NullInt64 := {| Int64 := n; Int64Valid := true |}.
Definition float64_of (x : float) : NullFloat64 := {| Float64 := x; Float64Valid := true |}.
Definition string_of (s : string) : NullString := {| String := s; StringValid := true |}.

(** SQL's [city_name = $1]: never true of a null. *)
Definition city_name_is (cityName : string) (l : LocationRow) : bool :=
  StringValid (CityName l) && bool_decide (String (CityName l) = cityName).

(** *** [FetchLocationWeather] *)

(** [select max(at_time) from weather]: null on an empty table. *)
Definition max_at_time (ws : list WeatherRow) : option Z :=
  foldr (λ w acc,
           match acc with
           | None => Some (UnixNano (AtTime w))
           | Some m => Some (Z.max (UnixNano (AtTime w)) m)
           end) None ws.

(** The rows the query of [FetchLocationWeather] selects:
    [from locations, weather where city_name = $1
     and at_time = (select max(at_time) from weather)]. *)
Definition FetchLocationWeather_query (db : Database) (cityName : string)
    : list (LocationRow * WeatherRow) :=
  l ← locations db;
  w ← weather db;
  if city_name_is cityName l
     && bool_decide (Some (UnixNano (AtTime w)) = max_at_time (weather db))
  then [(l, w)] else [].

(** [GlobalConn.QueryRow(...).Scan(...)]: the driver's failure if there is
    one, [sql.ErrNoRows] on an empty result, and otherwise the first row (SQL
    leaves the order of the rows open; the model takes the order of the
    tables). *)
Definition scan_row {A} (fault : error) (rows : list A) : option A * error :=
  match fault with
  | Some e => (None, Some e)
  | None =>
      match rows with
      | [] => (None, Some ErrNoRows)
      | r :: _ => (Some r, None)
      end
  end.

(** The zero values [&LocationRow{}] and [&WeatherRow{}] that [Scan] fills. *)
Definition zero_time : Time :=
  {| UnixNano := -62135596800000000000; Year := 1; Month := 1; Day := 1 |}.

Definition zero_location : LocationRow :=
  {| ID := null_int64; QueryCount := null_int64; CityName := null_string |}.

Definition zero_weather : WeatherRow :=
  {| LocationRowID := null_int64; TempHigh := null_float64; TempLow := null_float64;
     Labels := []; AtTime := zero_time |}.

(** [switch err := row.Scan(...); err { case sql.ErrNoRows: ...; case err: ...;
    default: ... }].  Go compares the tag [err] with the case expressions in
    order and runs the first case that is equal to it; the second case
    expression is [err] itself. *)
Definition FetchLocationWeather (fault : error) (db : Database) (cityName : string)
    : option QueryResult * error :=
  let lr := zero_location in
  let wr := zero_weather in
  let '(row, err) := scan_row fault (FetchLocationWeather_query db cityName) in
  let '(lr, wr) := match row with Some r => r | None => (lr, wr) end in
  if decide (err = Some ErrNoRows) then (None, None)
  else if decide (err = err) then (None, err)
  else (Some (<["location" := LocationValue lr]>
                (<["weather" := WeatherValue wr]> ∅)), None).

(** *** [IncrQueryCount] *)

Record IncrFaults : Type := {
  FailIncrPrepare : error;
  FailIncrExec : error;
  FailIncrClose : error
}.

(** [update locations set query_count = $2 where city_name = $1] *)
Definition update_query_count (cityName : NullString) (count : NullInt64)
    (ls : list LocationRow) : list LocationRow :=
  (λ l, if StringValid cityName && city_name_is (String cityName) l
        then {| ID := ID l; QueryCount := count; CityName := CityName l |}
        else l) <$> ls.

(** The receiver is a pointer: the method returns the row as it has
    mutated it, the store and its error. *)
Definition IncrQueryCount (F : IncrFaults) (lr : LocationRow) (db : Database)
    : LocationRow * Database * error :=
  let lr := {| ID := ID lr;
               QueryCount := {| Int64 := wrap64 (Int64 (QueryCount lr) + 1);
                                Int64Valid := Int64Valid (QueryCount lr) |};
               CityName := CityName lr |} in
  match FailIncrPrepare F with
  | Some e => (lr, db, Some e)
  | None =>
      match FailIncrExec F with
      | Some e => (lr, db, Some e)
      | None =>
          (lr,
           {| locations := update_query_count (CityName lr) (QueryCount lr) (locations db);
              weather := weather db |},
           FailIncrClose F)
      end
  end.

(** *** [UpdateCachedLocationWeather] *)

(** The driver calls of the write-back that can fail. *)
Record TxnFaults : Type := {
  FailBegin : error;
  FailPrepareLocation : error;
  FailLocationUpsert : error;
  FailPrepareWeather : error;
  FailWeatherInsert : error;
  FailCommit : error
}.

(** How the deferred function ended the transaction. *)
Inductive TxnEnd : Type := Commit | Rollback.

(** [locations.query_count + 1]; null stays null. *)
Definition succ_count (c : NullInt64) : NullInt64 :=
  {| Int64 := if Int64Valid c then Int64 c + 1 else Int64 c;
     Int64Valid := Int64Valid c |}.

(** The next value of the [serial] column [id], taken here as one more than
    the largest id of the table. *)
Definition next_id (ls : list LocationRow) : Z :=
  1 + foldr (λ l m, Z.max (Int64 (ID l)) m) 0 ls.

(** [insert into locations (city_name, query_count) values ($1, $2)
     on conflict (city_name) do update set query_count = locations.query_count + 1
     returning id, city_name, query_count] *)
Fixpoint upsert_location (ls : list LocationRow) (fresh : Z) (cityName : string) (count : Z)
    : list LocationRow * LocationRow :=
  match ls with
  | [] =>
      let l := {| ID := int64_of fresh;
                  QueryCount := int64_of count;
                  CityName := string_of cityName |} in
      ([l], l)
  | l :: ls =>
      if city_name_is cityName l then
        let l' := {| ID := ID l;
                     QueryCount := succ_count (QueryCount l);
                     CityName := CityName l |} in
        (l' :: ls, l')
      else
        let '(ls', r) := upsert_location ls fresh cityName count in
        (l :: ls', r)
  end.

(** What the call hands back and leaves behind. *)
Record UpdateOutcome : Type := {
  upd_result : option QueryResult;
  upd_err : error;
  upd_db : Database;
  upd_end : option TxnEnd
}.

(** The deferred function: it reads the function's variable [err] when the
    function returns, rolls back if it is set and commits otherwise.  The
    results are unnamed, so the assignment [err = txn.Commit()] does not
    reach the caller.  [db] is the store before the transaction and [txn]
    the transaction's view of it. *)
Definition deferred (F : TxnFaults) (db txn : Database) (err : error)
    (result : option QueryResult) (returned : error) : UpdateOutcome :=
  match err with
  | Some _ =>
      {| upd_result := result; upd_err := returned; upd_db := db;
         upd_end := Some Rollback |}
  | None =>
      {| upd_result := result; upd_err := returned;
         upd_db := match FailCommit F with Some _ => db | None => txn end;
         upd_end := Some Commit |}
  end.

Definition UpdateCachedLocationWeather (F : TxnFaults) (now : Time) (db : Database)
    (cityName : string) (tempMin tempMax : float) (labels : list string)
    : UpdateOutcome :=
  let err : error := None in
  match FailBegin F with
  | Some txnError =>
      {| upd_result := None; upd_err := err; upd_db := db; upd_end := None |}
  | None =>
      let txn := db in
      let err := FailPrepareLocation F in
      if decide (err ≠ None) then deferred F db txn err None err
      else
        let '(ls, lr) :=
          upsert_location (locations txn) (next_id (locations txn)) cityName 1 in
        let err := FailLocationUpsert F in
        if decide (err ≠ None) then deferred F db txn err None err
        else
          let txn := {| locations := ls; weather := weather txn |} in
          let err := FailPrepareWeather F in
          if decide (err ≠ None) then deferred F db txn err None err
          else
            let wr := {| LocationRowID := ID lr;
                         TempHigh := float64_of tempMax;
                         TempLow := float64_of tempMin;
                         Labels := labels;
                         AtTime := now |} in
            (* [if err := row.Scan(...); err != nil]: a new [err], in the
               scope of the [if] only *)
            let err' := FailWeatherInsert F in
            if decide (err' ≠ None) then deferred F db txn err None err'
            else
              let txn := {| locations := locations txn;
                            weather := weather txn ++ [wr] |} in
              deferred F db txn err
                (Some (<["location" := LocationValue lr]>
                         (<["weather" := WeatherValue wr]> ∅))) None
  end.

End Db.

Import Db.

(** ** Package [api]: the provider's answer *)

Module Api.

Record weather : Type := { Label : string }.

Record conditions : Type := { TempMin : float; TempMax : float }.

(** [Location], with the fields the handler reads.  [Main] and [Message]
    are pointers. *)
Record Location : Type := {
  Cod : Z;
  Weather : list weather;
  Main : option conditions;
  Message : option string
}.

(** [WeatherLabels] *)
Definition WeatherLabels (l : Location) : list string :=
  foldl (λ labels w, labels ++ [Label w]) [] (Weather l).

End Api.

Import Api.

(** ** Package [main]: the weather handler *)

Module Main.

Definition cacheTTLMinutes : float := 1%float.

Definition errMethodMustBeGET : Err := ErrOther "HTTP method must be GET".

Definition MethodGet : string := "GET".

(** The message sent when the provider gives none. *)
Definition unknown_reason : string :=
  "failed to communicate with the openweather api: unknown reason".

(** The request, with [url.ParseQuery(r.URL.RawQuery)] already applied. *)
Record Request : Type := {
  Method : string;
  ParseQuery : Err + gmap string (list string)
}.

(** [url.Values.Get] *)
Definition Get (params : gmap string (list string)) (key : string) : string :=
  match params !! key with
  | Some (v :: _) => v
  | _ => ""
  end.

(** What the handler depends on besides the request and the store. *)
Record World : Type := {
  Title : string → string;                         (* strings.Title *)
  Now : Time;                                      (* time.Now() in the handler *)
  NowInsert : Time;                                (* time.Now() in the write-back *)
  FetchCurrentWeatherByLocationName : string → option Location * error;
  FetchFault : error;
  IncrFault : IncrFaults;
  TxnFault : TxnFaults
}.

(** The anonymous struct [sendJSON] encodes for a reading. *)
Record WeatherReport : Type := {
  city_name : string;
  conditions_ : list string;
  low_temp : float;
  high_temp : float;
  median_temp : float;
  at_time : Time
}.

Inductive Response : Type :=
| MethodError (e : Err)             (* methodError: 405 *)
| InternalServerError (e : Err)     (* internalServerError: 500 *)
| SendMessage (m : string)          (* sendMessage *)
| SendJSON (r : WeatherReport)      (* sendJSON *)
| Panic.                            (* nil pointer dereference *)

(** The calls the handler makes to its collaborators, in order. *)
Inductive Event : Type :=
| EvFetchLocationWeather (cityName : string)
| EvIncrQueryCount (cityName : NullString)
| EvGateway (cityName : string)
| EvUpdateCachedLocationWeather (cityName : string) (ended : option TxnEnd).

Record Outcome : Type := {
  response : Response;
  store : Database;
  trace : list Event
}.

(** [parseRows]: the last [*db.LocationRow] and [*db.WeatherRow] among the
    values of [q]; ranging over a nil map runs no iteration. *)
Definition parseRows (q : option QueryResult)
    : option LocationRow * option WeatherRow :=
  match q with
  | None => (None, None)
  | Some q =>
      map_fold (λ _ v '(lr, wr),
                  match v with
                  | LocationValue row => (Some row, wr)
                  | WeatherValue row => (lr, Some row)
                  end) (None, None) q
  end.

(** The final [sendJSON] of the handler; [wr] is dereferenced. *)
Definition respond (cityName : string) (wr : option WeatherRow) : Response :=
  match wr with
  | None => Panic
  | Some wr =>
      SendJSON {| city_name := cityName;
                  conditions_ := Labels wr;
                  low_temp := Float64 (TempLow wr);
                  high_temp := Float64 (TempHigh wr);
                  median_temp := ((Float64 (TempLow wr) + Float64 (TempHigh wr)) / 2)%float;
                  at_time := AtTime wr |}
  end.

(** The [if refresh { ... }] block followed by the final [sendJSON]. *)
Definition refresh_and_respond (W : World) (cityName : string) (db : Database)
    (tr : list Event) : Outcome :=
  let tr := tr ++ [EvGateway cityName] in
  match FetchCurrentWeatherByLocationName W cityName with
  | (_, Some err) =>
      {| response := InternalServerError err; store := db; trace := tr |}
  | (None, None) =>
      {| response := Panic; store := db; trace := tr |}
  | (Some location, None) =>
      if decide (Cod location ≠ 200) then
        match Message location with
        | Some m => {| response := SendMessage m; store := db; trace := tr |}
        | None => {| response := SendMessage unknown_reason; store := db; trace := tr |}
        end
      else
        match Main location with
        | None => {| response := Panic; store := db; trace := tr |}
        | Some main =>
            let tempMin := TempMin main in
            let tempMax := TempMax main in
            let labels := WeatherLabels location in
            let u := UpdateCachedLocationWeather (TxnFault W) (NowInsert W) db
                       cityName tempMin tempMax labels in
            let tr := tr ++ [EvUpdateCachedLocationWeather cityName (upd_end u)] in
            match upd_err u with
            | Some err =>
                {| response := InternalServerError err; store := upd_db u; trace := tr |}
            | None =>
                let '(lr, wr) := parseRows (upd_result u) in
                {| response := respond cityName wr; store := upd_db u; trace := tr |}
            end
        end
  end.

(** The handler from the declaration of [lr] and [wr] on, given what
    [FetchLocationWeather] returned in [query]. *)
Definition after_lookup (W : World) (cityName : string) (query : option QueryResult)
    (db : Database) (tr : list Event) : Outcome :=
  let '(lr, wr) := parseRows query in
  match lr, wr with
  | Some lr', Some wr' =>
      let delta := Sub (Now W) (AtTime wr') in
      if PrimFloat.ltb (Minutes delta) cacheTTLMinutes then
        (* refresh = false *)
        let '(_, db, err) := IncrQueryCount (IncrFault W) lr' db in
        let tr := tr ++ [EvIncrQueryCount (CityName lr')] in
        match err with
        | Some err => {| response := InternalServerError err; store := db; trace := tr |}
        | None => {| response := respond cityName wr; store := db; trace := tr |}
        end
      else refresh_and_respond W cityName db tr
  | _, _ => refresh_and_respond W cityName db tr
  end.

(** [ReportLocationWeather] *)
Definition ReportLocationWeather (W : World) (r : Request) (db : Database) : Outcome :=
  if decide (Method r ≠ MethodGet) then
    {| response := MethodError errMethodMustBeGET; store := db; trace := [] |}
  else
    match ParseQuery r with
    | inl err => {| response := InternalServerError err; store := db; trace := [] |}
    | inr params =>
        let cityName := Title W (Get params "city") in
        let tr := [EvFetchLocationWeather cityName] in
        match FetchLocationWeather (FetchFault W) db cityName with
        | (_, Some err) =>
            {| response := InternalServerError err; store := db; trace := tr |}
        | (query, None) => after_lookup W cityName query db tr
        end
    end.

End Main.

Import Main.

(** ** The spec's reading of the monthly average *)

Module Spec.

(** The mean of a list of samples. *)
Definition mean (l : list float) : float :=
  (foldl PrimFloat.add 0 l / float64_of_int (Z.of_nat (length l)))%float.

(** "first averaging all samples within a day, then averaging those daily
    averages across the days present in a month" *)
Definition two_stage_average (month : DailyTemperatureQuery) : float :=
  mean (mean <$> (map_to_list month).*2).

(** "the flat mean of all ... samples" *)
Definition flat_mean (month : DailyTemperatureQuery) : float :=
  mean (month_samples month).

End Spec.

(** ** Concrete runs *)

Module Scenario.

Definition Reno : string := "Reno".
Definition Oslo : string := "Oslo".

(** A day of March 2019, and an instant given in seconds. *)
Definition march (day : Z) : Time :=
  {| UnixNano := 0; Year := 2019; Month := 3; Day := day |}.

Definition at_second (s : Z) : Time :=
  {| UnixNano := s * 1000000000; Year := 2019; Month := 3; Day := 29 |}.

Definition row (city : NullString) (day : Z) (lo hi : NullFloat64) : Scanned :=
  ScanOk {| cname := city; id := int64_of 1; t := march day;
            templo := lo; temphi := hi; lid := int64_of 1 |}.

(** Reno, March 2019: two readings on day 1 with mid temperatures 10 and 20,
    one on day 2 with mid temperature 30. *)
Definition two_days : list Scanned :=
  [ row (string_of Reno) 1 (float64_of 10) (float64_of 10);
    row (string_of Reno) 1 (float64_of 20) (float64_of 20);
    row (string_of Reno) 2 (float64_of 30) (float64_of 30) ].

Definition two_days_month : DailyTemperatureQuery :=
  <[1 := [10; 20]%float]> (<[2 := [30%float]]> ∅).

(** Reno, 29 March 2019: one reading whose temperatures are null. *)
Definition null_reading : list Scanned :=
  [ row (string_of Reno) 29 null_float64 null_float64 ].

(** A result that holds one sample, for Reno on 29 March 2019. *)
Definition one_sample : LocationTemperatureQueryResult :=
  <[Reno := <[2019 := <[3 := <[29 := [281.5%float]]> ∅]> ∅]> ∅]> ∅.

(** The leaf a report holds at a path; [None] when the report panicked,
    returned no map or holds no such path. *)
Definition report_leaf (r : option Report) (city : string) (y mo d : Z)
    : option TemperatureQueries :=
  r ≫= λ '(q, _), q ≫= λ q, leaf q city y mo d.

(** The store after Reno was fetched at second 0: its location row, counted
    once, and its reading. *)
Definition reno_row : LocationRow :=
  {| ID := int64_of 1; QueryCount := int64_of 1; CityName := string_of Reno |}.

Definition oslo_row : LocationRow :=
  {| ID := int64_of 2; QueryCount := int64_of 1; CityName := string_of Oslo |}.

Definition reading (location_id : Z) (s : Z) (lo hi : float) : WeatherRow :=
  {| LocationRowID := int64_of location_id;
     TempHigh := float64_of hi;
     TempLow := float64_of lo;
     Labels := ["Clear"];
     AtTime := at_second s |}.

Definition reno_reading : WeatherRow := reading 1 0 274 278.
Definition oslo_reading : WeatherRow := reading 2 20 270 272.

Definition reno_only : Database :=
  {| locations := [reno_row]; Db.weather := [reno_reading] |}.

(** Reno fetched at second 0, Oslo at second 20. *)
Definition two_cities : Database :=
  {| locations := [reno_row; oslo_row]; Db.weather := [reno_reading; oslo_reading] |}.

Definition no_incr_faults : IncrFaults :=
  {| FailIncrPrepare := None; FailIncrExec := None; FailIncrClose := None |}.

Definition no_txn_faults : TxnFaults :=
  {| FailBegin := None; FailPrepareLocation := None; FailLocationUpsert := None;
     FailPrepareWeather := None; FailWeatherInsert := None; FailCommit := None |}.

(** The insert of the reading fails; every other call succeeds. *)
Definition weather_insert_fails : TxnFaults :=
  {| FailBegin := None; FailPrepareLocation := None; FailLocationUpsert := None;
     FailPrepareWeather := None;
     FailWeatherInsert := Some (ErrOther "pq: insert into weather failed");
     FailCommit := None |}.

(** [GlobalConn.Begin] fails. *)
Definition begin_fails : TxnFaults :=
  {| FailBegin := Some (ErrOther "pq: connection refused");
     FailPrepareLocation := None; FailLocationUpsert := None;
     FailPrepareWeather := None; FailWeatherInsert := None; FailCommit := None |}.

Definition clear_sky : Location :=
  {| Cod := 200;
     Weather := [ {| Label := "Clear" |} ];
     Main := Some {| TempMin := 274; TempMax := 278 |};
     Message := None |}.

Definition city_not_found : Location :=
  {| Cod := 404; Weather := []; Main := None; Message := Some "city not found" |}.

(** A world without faults, [now] seconds after the epoch, whose provider
    answers every name with [answer].  The names used here are in title case
    already, where [strings.Title] is the identity. *)
Definition world (now : Z) (answer : Location) : World :=
  {| Title := λ s, s;
     Now := at_second now;
     NowInsert := at_second now;
     FetchCurrentWeatherByLocationName := λ _, (Some answer, None);
     FetchFault := None;
     IncrFault := no_incr_faults;
     TxnFault := no_txn_faults |}.

(** [GET /api/v1/location/weather?city=<city>] *)
Definition get_weather (city : string) : Request :=
  {| Method := "GET"; ParseQuery := inr (<["city" := [city]]> ∅) |}.

End Scenario.

(** ** Package [db]: the statistics queries *)

Module Stats.

(** What [GlobalConn.Query] yields for a query whose rows scan into [A]: an
    error, or for each row of the cursor what [rows.Scan] gives. *)
Inductive Fetched (A : Type) : Type :=
| FetchErr (e : Err)
| FetchRows (rows : list (Err + A)).

Arguments FetchErr {A} e.
Arguments FetchRows {A} rows.

(** *** [TotalQueryCount] *)

(** [select sum(query_count) from locations where city_name is not null]:
    the sum of the counts that are not null, null when there is none. *)
Definition sum_query_count (ls : list LocationRow) : NullInt64 :=
  foldr (λ l acc,
           if StringValid (CityName l) && Int64Valid (QueryCount l)
           then int64_of (Int64 (QueryCount l) + (if Int64Valid acc then Int64 acc else 0))
           else acc) null_int64 ls.

Definition TotalQueryCount (fault : error) (db : Database) : Z * error :=
  match fault with
  | Some err => (0, Some err)
  | None =>
      let count := sum_query_count (locations db) in
      if Int64Valid count then (Int64 count, None) else (0, None)
  end.

(** *** [KnownWeatherLabels] *)

(** The rows of [select labels from weather where location_id is not null],
    in the order of the table. *)
Definition labels_rows (db : Database) : list (Err + list string) :=
  (λ w, inr (Labels w)) <$> filter (λ w, Int64Valid (LocationRowID w) = true) (Db.weather db).

(** [for _, l := range ls { ... }] on [labels] and [uniqueLabels]. *)
Definition range_labels (ls : list string) (st : list string * gmap string bool)
    : list string * gmap string bool :=
  foldl (λ '(labels, uniqueLabels) l,
           match uniqueLabels !! l with
           | Some _ => (labels, uniqueLabels)
           | None => (labels ++ [l], <[l := true]> uniqueLabels)
           end) st ls.

Fixpoint KnownWeatherLabels_rows (rows : list (Err + list string))
    (st : list string * gmap string bool) : option (list string) * error :=
  match rows with
  | [] => (Some st.1, None)
  | inl err :: _ => (None, Some err)
  | inr ls :: rows => KnownWeatherLabels_rows rows (range_labels ls st)
  end.

Definition KnownWeatherLabels (conn : Fetched (list string)) : option (list string) * error :=
  match conn with
  | FetchErr err => (None, Some err)
  | FetchRows rows => KnownWeatherLabels_rows rows ([], ∅)
  end.

(** *** [DailyWeatherSummary] *)

(** A row of the summary query: [city_name], [id], [at_time], [labels] and
    [location_id]. *)
Record SummaryRow : Type := {
  c : NullString;
  sid : NullInt64;
  st : Time;
  ls : list string;
  slid : NullInt64
}.

(** The anonymous [struct { CityName string; Date time.Time }]. *)
Record Sighting : Type := { SightingCityName : string; SightingDate : Time }.

(** [QueryResultList], with the one type of value this function stores. *)
Abbreviation QueryResultList := (gmap string (list Sighting)).

(** The body of [for _, l := range ls]: the guarded creation of the list of
    [l], then the append. *)
Definition note_label (city : string) (at_time : Time) (summary : QueryResultList)
    (l : string) : QueryResultList :=
  let summary :=
    match summary !! l with
    | Some _ => summary
    | None => <[l := []]> summary
    end in
  <[l := default [] (summary !! l)
         ++ [ {| SightingCityName := city; SightingDate := at_time |} ]]> summary.

Fixpoint DailyWeatherSummary_rows (rows : list (Err + SummaryRow))
    (summary : QueryResultList) : option QueryResultList * error :=
  match rows with
  | [] => (Some summary, None)
  | inl err :: _ => (None, Some err)
  | inr r :: rows =>
      if negb (StringValid (c r)) then DailyWeatherSummary_rows rows summary
      else DailyWeatherSummary_rows rows
             (foldl (note_label (String (c r)) (st r)) summary (ls r))
  end.

Definition DailyWeatherSummary (conn : Fetched SummaryRow) : option QueryResultList * error :=
  match conn with
  | FetchErr err => (None, Some err)
  | FetchRows rows => DailyWeatherSummary_rows rows ∅
  end.

(** The sightings of [l] that the rows of a cursor hold, in their order:
    one for each occurrence of [l] in a row with a city name. *)
Definition sightings_of (l : string) (rows : list SummaryRow) : list Sighting :=
  r ← rows;
  if StringValid (c r)
  then (λ _, {| SightingCityName := String (c r); SightingDate := st r |})
         <$> filter (λ l', l' = l) (ls r)
  else [].

(** A list of the summary extended by new sightings: created if need be,
    left alone when there is none. *)
Definition extend (o : option (list Sighting)) (new : list Sighting)
    : option (list Sighting) :=
  match new with
  | [] => o
  | _ => Some (default [] o ++ new)
  end.

(** The count [TotalQueryCount] reports when the query succeeds. *)
Definition total (db : Database) : Z := (TotalQueryCount None db).1.

End Stats.

(** ** Invariants of the store *)

Module Store.

(** The city names of a [locations] table. *)
Definition names (ls : list LocationRow) : list string :=
  omap (λ l, if StringValid (CityName l) then Some (String (CityName l)) else None) ls.

(** No two location rows share a city name ([city_name] is [unique]), and
    every reading belongs to a location row. *)
Definition well_formed (db : Database) : Prop :=
  NoDup (names (locations db)) ∧
  ∀ w, w ∈ Db.weather db → ∃ l, l ∈ locations db ∧ ID l = LocationRowID w.

(** What a location row adds to the total: its count, if it has a city name
    and a count. *)
Definition count_of (l : LocationRow) : Z :=
  if StringValid (CityName l) && Int64Valid (QueryCount l) then Int64 (QueryCount l) else 0.

(** A plan in which only [txn.Commit] fails. *)
Definition commit_fails (err : Err) : TxnFaults :=
  {| FailBegin := None; FailPrepareLocation := None; FailLocationUpsert := None;
     FailPrepareWeather := None; FailWeatherInsert := None; FailCommit := Some err |}.

End Store.


(** ** The bucketing of the two reports, row by row *)

Module Buckets.

(** The sample a report takes from a row: the selected temperature for
    [MonthlyTemperature], the mid temperature for
    [MonthlyAverageTemperature]; none when a temperature it needs is null. *)
Definition selected_sample (param : Param) (r : JoinedRow) : option float :=
  if Float64Valid (column param r) then Some (Float64 (column param r)) else None.


(** The rows of a cursor that fall on a path: those with a city name, of
    that city and that date. *)
Definition at_path (city : string) (y mo d : Z) (r : JoinedRow) : Prop :=
  StringValid (cname r) = true ∧ String (cname r) = city ∧
  Year (t r) = y ∧ Month (t r) = mo ∧ Day (t r) = d.

#[global] Instance at_path_dec city y mo d r : Decision (at_path city y mo d r).
Proof. unfold at_path. apply _. Defined.

(** The loop the two reports share, on rows that all scan, for either way
    of taking a sample. *)
Fixpoint bucket_rows (sample : JoinedRow → option float) (rows : list JoinedRow)
    (temps : LocationTemperatureQueryResult) : option LocationTemperatureQueryResult :=
  match rows with
  | [] => Some temps
  | r :: rows =>
      if negb (StringValid (cname r)) then bucket_rows sample rows temps
      else
        temps ← InitialiseForDate temps (String (cname r))
                  (Year (t r)) (Month (t r)) (Day (t r));
        match sample r with
        | None => bucket_rows sample rows temps
        | Some temp =>
            temps ← Add temps temp (String (cname r))
                      (Year (t r)) (Month (t r)) (Day (t r));
            bucket_rows sample rows temps
        end
  end.

(** What the rows of a path leave in its leaf. *)
Definition bucket_of (sample : JoinedRow → option float) (city : string) (y mo d : Z)
    (rows : list JoinedRow) : option (list float) :=
  match filter (at_path city y mo d) rows with
  | [] => None
  | rs => Some (omap sample rs)
  end.

End Buckets.

(** ** Package [db]: establishing the connection *)

Module Conn.

(** What one turn of the loop of [Establish] meets: [sql.Open] fails, or it
    succeeds and [Ping] fails, or both succeed. *)
Inductive Attempt : Type :=
| OpenFails (err : Err)
| PingFails (err : Err)
| Connects.

(** How a call ends: the error returned, the counter [attempts], the number
    of calls of [wait], and the turn whose connection [dbc.DB] holds ([None]:
    the loop has not assigned it). *)
Record Established : Type := {
  est_err : error;
  est_attempts : Z;
  est_waits : nat;
  est_DB : option nat
}.

(** [timeout]: [n >= retryCount]. *)
Definition timeout (retryCount n : Z) : bool := n >=? retryCount.

(** The [for] loop, [fuel] turns of it at most; [turn] counts the turns and
    [outcome] tells what each turn meets. *)
Fixpoint Establish_loop (fuel : nat) (retryCount : Z) (outcome : nat → Attempt)
    (turn : nat) (attempts : Z) (waits : nat) (DB : option nat) : option Established :=
  match fuel with
  | O => None
  | S fuel =>
      match outcome turn with
      | OpenFails err =>
          if timeout retryCount attempts
          then Some {| est_err := Some err; est_attempts := attempts;
                       est_waits := waits; est_DB := DB |}
          else Establish_loop fuel retryCount outcome (S turn) (attempts + 1) (S waits) DB
      | PingFails err =>
          let DB := Some turn in
          if timeout retryCount attempts
          then Some {| est_err := Some err; est_attempts := attempts;
                       est_waits := waits; est_DB := DB |}
          else Establish_loop fuel retryCount outcome (S turn) (attempts + 1) (S waits) DB
      | Connects =>
          Some {| est_err := None; est_attempts := attempts;
                  est_waits := waits; est_DB := Some turn |}
      end
  end.

(** [Establish].  [up] is [None] when [dbc.DB] is nil and otherwise what the
    first [Ping] returns. *)
Definition Establish (fuel : nat) (up : option error) (retryCount : Z)
    (outcome : nat → Attempt) : option Established :=
  let attempts := 0 in
  match up with
  | Some None =>
      Some {| est_err := None; est_attempts := attempts; est_waits := 0; est_DB := None |}
  | _ => Establish_loop fuel retryCount outcome 0 attempts 0 None
  end.

(** The error a failing turn carries. *)
Definition failure (a : Attempt) : error :=
  match a with
  | OpenFails err | PingFails err => Some err
  | Connects => None
  end.

End Conn.

(** ** Package [main]: the statistics handler *)

Module StatsHandler.

Import Stats.

(** The inner loop of [hasParam]: [for _, t := range targets]. *)
Fixpoint range_targets (ToLower : string → string) (v : string) (targets : list string)
    : bool :=
  match targets with
  | [] => false
  | t :: targets =>
      if decide (ToLower v = t) then true else range_targets ToLower v targets
  end.

(** [hasParam], [strings.ToLower] being given. *)
Fixpoint hasParam (ToLower : string → string) (p : list string) (targets : list string)
    : bool :=
  match p with
  | [] => false
  | v :: p => if range_targets ToLower v targets then true else hasParam ToLower p targets
  end.

(** What the handler reads. *)
Record World : Type := {
  ToLower : string → string;        (* strings.ToLower *)
  Store : Database;                 (* the store [TotalQueryCount] sums over *)
  CountFault : error;               (* the failure of its [Scan] *)
  LabelsCursor : Fetched (list string);
  SummaryCursor : Fetched SummaryRow;
  TemperatureCursor : Cursor
}.

(** The values the handler stores in [stats]. *)
Inductive Stat : Type :=
| CountStat (location_queries : Z)
| LabelsStat (labels : option (list string))
| SummaryStat (daily : option QueryResultList)
| TemperaturesStat (temps : gmap string (option LocationTemperatureQueryResult)).

Inductive Response : Type :=
| Stats405 (e : Err)                        (* methodError *)
| Stats500 (e : Err)                        (* internalServerError *)
| Stats202 (ValidQueryParameters : list string)   (* sendDoc *)
| StatsJSON (stats : gmap string Stat)      (* sendJSON *)
| StatsPanic.

Definition ValidQueryParameters : list string :=
  [ "count=query|labels (only query is implemented)";
    "summary=day|month|year (only day is implemented)";
    "temp=lows|highs|avgs" ].

(** [for _, subv := range p] of the case ["temp"]; [inl] is the early
    return. *)
Fixpoint range_temp (W : World) (p : list string)
    (temps : gmap string (option LocationTemperatureQueryResult))
    : Response + gmap string (option LocationTemperatureQueryResult) :=
  match p with
  | [] => inr temps
  | subv :: p =>
      let f : TemperatureQueryFilter := subv in
      let report :=
        if decide (f = FilterAverages)
        then MonthlyAverageTemperature (TemperatureCursor W)
        else MonthlyTemperature f (TemperatureCursor W) in
      match report with
      | None => inl StatsPanic
      | Some (_, Some err) => inl (Stats500 err)
      | Some (report, None) => range_temp W p (<[subv := report]> temps)
      end
  end.

(** The body of [for q, p := range params]. *)
Definition handle_param (W : World) (q : string) (p : list string)
    (stats : gmap string Stat) : Response + gmap string Stat :=
  if decide (q = "count") then
    let counted :=
      if hasParam (ToLower W) p ["query"] then
        match TotalQueryCount (CountFault W) (Store W) with
        | (_, Some err) => inl (Stats500 err)
        | (count, None) => inr (<["count" := CountStat count]> stats)
        end
      else inr stats in
    match counted with
    | inl response => inl response
    | inr stats =>
        if hasParam (ToLower W) p ["labels"] then
          match KnownWeatherLabels (LabelsCursor W) with
          | (_, Some err) => inl (Stats500 err)
          | (labels, None) => inr (<["labels" := LabelsStat labels]> stats)
          end
        else inr stats
    end
  else if decide (q = "summary") then
    if hasParam (ToLower W) p ["day"] then
      match DailyWeatherSummary (SummaryCursor W) with
      | (_, Some err) => inl (Stats500 err)
      | (summary, None) => inr (<["summary" := SummaryStat summary]> stats)
      end
    else inr stats
  else if decide (q = "temp") then
    if hasParam (ToLower W) p ["lows"; "highs"; "avgs"] then
      match range_temp W p ∅ with
      | inl response => inl response
      | inr temps => inr (<["temperatures" := TemperaturesStat temps]> stats)
      end
    else inr stats
  else inr stats.

(** [ReportWeatherStatistics].  Go ranges over [params] in an unspecified
    order; the model takes the order of [map_fold]. *)
Definition ReportWeatherStatistics (W : World) (r : Request) : Response :=
  if decide (Method r ≠ MethodGet) then Stats405 errMethodMustBeGET
  else
    match ParseQuery r with
    | inl err => Stats500 err
    | inr params =>
        if decide (size params = 0%nat) then Stats202 ValidQueryParameters
        else
          match map_fold (λ q p acc,
                            match acc with
                            | inl response => inl response
                            | inr stats => handle_param W q p stats
                            end) (inr ∅) params with
          | inl response => response
          | inr stats => StatsJSON stats
          end
    end.

(** ASCII lower case, for the runs below; [strings.ToLower] agrees with it on
    ASCII strings. *)
Definition lower_ascii (a : Ascii.ascii) : Ascii.ascii :=
  let n := Ascii.nat_of_ascii a in
  if (65 <=? n)%nat && (n <=? 90)%nat then Ascii.ascii_of_nat (n + 32) else a.

Fixpoint lower (s : string) : string :=
  match s with
  | EmptyString => EmptyString
  | String.String a s => String.String (lower_ascii a) (lower s)
  end.


End StatsHandler.

(** ** Accounts and bookmarks *)

Module Accounts.

(** [AccountRow], a row of [accounts (id, user_name)]; the Go fields are
    [Name] and [ID]. *)
Record AccountRow : Type := { Name : NullString; AccountID : NullInt64 }.

(** [BookmarkRow], a row of [bookmarks (id, location_ids)]; the Go fields are
    [ID] and [LocationIDs], a [pq.Int64Array], nil for a null column. *)
Record BookmarkRow : Type := { BookmarkID : NullInt64; LocationIDs : option (list Z) }.

(** The three tables these functions read and write. *)
Record Tables : Type := {
  accounts : list AccountRow;
  accounts_id_seq : Z;            (* the last value of the sequence of [accounts.id] *)
  bookmarks : list BookmarkRow;
  places : list LocationRow       (* the table [locations] *)
}.

(** The failure of the driver in each of the calls, if any; the errors that
    the statements themselves raise come from the tables. *)
Record Faults : Type := {
  FailNewAccount : error;
  FailExistingAccount : error;
  FailNewBookmarkCollection : error;
  FailGetBookmarkCollectionIDs : error;
  FailUpdateBookmarkCollectionIDs : error;
  FailNamesFromIDs : error;
  FailIDsFromNames : error
}.

(** The errors of the driver for a violated constraint: [Error()] is
    ["pq: "] and the server's message, which quotes the constraint or the
    column. *)
Definition quoted (s : string) : string :=
  String.String (Ascii.ascii_of_nat 34) s +:+ String.String (Ascii.ascii_of_nat 34) EmptyString.

Definition errDuplicateKey (constraint : string) : Err :=
  ErrOther ("pq: duplicate key value violates unique constraint " +:+ quoted constraint).

Definition errNotNull (column : string) : Err :=
  ErrOther ("pq: null value in column " +:+ quoted column +:+ " violates not-null constraint").

Definition user_name_is (username : string) (a : AccountRow) : bool :=
  StringValid (Name a) && bool_decide (String (Name a) = username).

(** SQL's [id = $1] on nullable integers: never true of a null. *)
Definition same_id (x y : NullInt64) : bool :=
  Int64Valid x && Int64Valid y && bool_decide (Int64 x = Int64 y).

(** [NewAccount]: the default of the [serial] column [id] takes the next
    value of the sequence, also when the row is not inserted; [insert ... on
    conflict (user_name) do nothing returning id, user_name] returns no row
    on a conflict, and [Scan] then gives [sql.ErrNoRows]. *)
Definition NewAccount (F : Faults) (T : Tables) (username : string)
    : option AccountRow * error * Tables :=
  match FailNewAccount F with
  | Some err => (None, Some err, T)
  | None =>
      let id := accounts_id_seq T + 1 in
      let rowData := {| Name := string_of username; AccountID := int64_of id |} in
      let skipped :=
        {| accounts := accounts T; accounts_id_seq := id; bookmarks := bookmarks T;
           places := places T |} in
      if existsb (user_name_is username) (accounts T) then (None, Some ErrNoRows, skipped)
      else if existsb (λ a, same_id (AccountID a) (int64_of id)) (accounts T)
      then (None, Some (errDuplicateKey "accounts_pkey"), skipped)
      else
        (Some rowData, None,
         {| accounts := accounts T ++ [rowData]; accounts_id_seq := id;
            bookmarks := bookmarks T; places := places T |})
  end.

(** [ExistingAccount]: [sql.ErrNoRows] is turned into a nil row and a nil
    error. *)
Definition ExistingAccount (F : Faults) (T : Tables) (username : string)
    : option AccountRow * error :=
  match scan_row (FailExistingAccount F) (filter (λ a, user_name_is username a = true) (accounts T)) with
  | (_, Some err) => if decide (err = ErrNoRows) then (None, None) else (None, Some err)
  | (row, None) => (row, None)
  end.

(** [NewBookmarkCollection]: the row [(u.ID, nil)] is inserted; [id] is the
    primary key. *)
Definition NewBookmarkCollection (F : Faults) (T : Tables) (u : AccountRow)
    : option BookmarkRow * error * Tables :=
  match FailNewBookmarkCollection F with
  | Some err => (None, Some err, T)
  | None =>
      let rowData := {| BookmarkID := AccountID u; LocationIDs := None |} in
      if negb (Int64Valid (AccountID u)) then (None, Some (errNotNull "id"), T)
      else if existsb (λ b, same_id (BookmarkID b) (AccountID u)) (bookmarks T)
      then (None, Some (errDuplicateKey "bookmarks_pkey"), T)
      else (Some rowData, None,
            {| accounts := accounts T; accounts_id_seq := accounts_id_seq T;
               bookmarks := bookmarks T ++ [rowData]; places := places T |})
  end.

(** [GetBookmarkCollectionIDs]: again [sql.ErrNoRows] becomes nil and nil. *)
Definition GetBookmarkCollectionIDs (F : Faults) (T : Tables) (u : AccountRow)
    : option BookmarkRow * error :=
  match scan_row (FailGetBookmarkCollectionIDs F)
          (filter (λ b, same_id (BookmarkID b) (AccountID u) = true) (bookmarks T)) with
  | (_, Some err) => if decide (err = ErrNoRows) then (None, None) else (None, Some err)
  | (row, None) => (row, None)
  end.

(** [bookmarks.location_ids || $2]: a null array counts as the empty one. *)
Definition array_cat (old : option (list Z)) (new : list Z) : option (list Z) :=
  Some (default [] old ++ new).

(** [UpdateBookmarkCollectionIDs]: the update of the row of [u.ID]; without
    such a row the [Scan] of [returning location_ids] gives
    [sql.ErrNoRows]. *)
Definition UpdateBookmarkCollectionIDs (F : Faults) (T : Tables) (u : AccountRow)
    (new : list Z) : option BookmarkRow * error * Tables :=
  match FailUpdateBookmarkCollectionIDs F with
  | Some err => (None, Some err, T)
  | None =>
      let ids := foldl (λ ids b, ids ++ [b]) [] new in
      let updated :=
        (λ b, if same_id (BookmarkID b) (AccountID u)
              then {| BookmarkID := BookmarkID b;
                      LocationIDs := array_cat (LocationIDs b) ids |}
              else b) <$> bookmarks T in
      match filter (λ b, same_id (BookmarkID b) (AccountID u) = true) updated with
      | [] => (None, Some ErrNoRows, T)
      | b :: _ =>
          (Some {| BookmarkID := AccountID u; LocationIDs := LocationIDs b |}, None,
           {| accounts := accounts T; accounts_id_seq := accounts_id_seq T;
              bookmarks := updated; places := places T |})
      end
  end.

(** [id = any($1)] and [city_name = any($1)]; a null array or a null value
    matches nothing. *)
Definition id_any (ids : option (list Z)) (l : LocationRow) : bool :=
  Int64Valid (ID l) && bool_decide (Int64 (ID l) ∈ default [] ids).

Definition city_name_any (names : list string) (l : LocationRow) : bool :=
  StringValid (CityName l) && bool_decide (String (CityName l) ∈ names).

(** [NamesFromIDs]: the names, where not null, of the rows of
    [select city_name from locations where id = any($1)]. *)
Definition NamesFromIDs (F : Faults) (T : Tables) (b : BookmarkRow)
    : option (list string) * error :=
  match FailNamesFromIDs F with
  | Some err => (None, Some err)
  | None =>
      (Some (foldl (λ names l,
                      if StringValid (CityName l) then names ++ [String (CityName l)]
                      else names)
                   [] (filter (λ l, id_any (LocationIDs b) l = true) (places T))), None)
  end.

(** [IDsFromNames]: the ids, where not null, of the rows of
    [select id from locations where city_name = any($1)]. *)
Definition IDsFromNames (F : Faults) (T : Tables) (names : list string)
    : option (list Z) * error :=
  match FailIDsFromNames F with
  | Some err => (None, Some err)
  | None =>
      (Some (foldl (λ ids l, if Int64Valid (ID l) then ids ++ [Int64 (ID l)] else ids)
                   [] (filter (λ l, city_name_any names l = true) (places T))), None)
  end.

(** *** The handlers *)

Definition errMethodMustBePOST : Err := ErrOther "HTTP method must be POST".
Definition errMethodMustBeGETorPOST : Err := ErrOther "HTTP method must be GET or POST".
Definition MethodPost : string := "POST".

(** The body of the bookmark update: [{"username": str, "locations": str[]}]. *)
Record BookmarkPayload : Type := { Username : string; Locations : list string }.

(** A request with its query parsed and its body decoded. *)
Record Request (Payload : Type) : Type := {
  Method : string;
  ParseQuery : Err + gmap string (list string);
  Decode : Err + Payload
}.

Arguments Method {Payload} _.
Arguments ParseQuery {Payload} _.
Arguments Decode {Payload} _.

Inductive Response : Type :=
| MethodNotAllowed (e : Err)
| ServerError (e : Err)
| Message (m : string)
| UserInfo (name : string) (id : Z)
| Created (name : string) (id BookmarkCollectionID : Z) (BookmarkedLocationIDs : option (list Z))
| Bookmarks (names : option (list string))
| Panic.

(** [GetAccountUserInfo] *)
Definition GetAccountUserInfo (F : Faults) (T : Tables) (r : Request unit) : Response :=
  if decide (Method r ≠ MethodGet) then MethodNotAllowed errMethodMustBeGET
  else
    match ParseQuery r with
    | inl err => ServerError err
    | inr params =>
        let username := Get params "username" in
        match ExistingAccount F T username with
        | (_, Some err) => ServerError err
        | (None, None) => Message ("no account found with that username: " +:+ username)
        | (Some acc, None) => UserInfo (String (Name acc)) (Int64 (AccountID acc))
        end
    end.

(** [CreateNewAccount] *)
Definition CreateNewAccount (F : Faults) (T : Tables) (r : Request (gmap string string))
    : Response * Tables :=
  if decide (Method r ≠ MethodPost) then (MethodNotAllowed errMethodMustBePOST, T)
  else
    match Decode r with
    | inl err => (ServerError err, T)
    | inr payload =>
        let username := default "" (payload !! "username") in
        match NewAccount F T username with
        | (_, Some err, T) => (ServerError err, T)
        | (None, None, T) => (Panic, T)
        | (Some acc, None, T) =>
            match NewBookmarkCollection F T acc with
            | (_, Some err, T) => (ServerError err, T)
            | (None, None, T) => (Panic, T)
            | (Some col, None, T) =>
                (Created (String (Name acc)) (Int64 (AccountID acc))
                         (Int64 (BookmarkID col)) (LocationIDs col), T)
            end
        end
    end.

(** The end both cases of [AccountBookmarksCollectionAction] share: the test
    [col == nil], whose branch formats [col.ID.Int64], and the names. *)
Definition bookmarks_of (F : Faults) (T : Tables) (col : option BookmarkRow) : Response :=
  match col with
  | None => Panic
  | Some col =>
      match NamesFromIDs F T col with
      | (_, Some err) => ServerError err
      | (locs, None) => Bookmarks locs
      end
  end.

(** [AccountBookmarksCollectionAction] *)
Definition AccountBookmarksCollectionAction (F : Faults) (T : Tables)
    (r : Request BookmarkPayload) : Response * Tables :=
  if decide (Method r = MethodGet) then
    match ParseQuery r with
    | inl err => (ServerError err, T)
    | inr params =>
        let username := Get params "username" in
        match ExistingAccount F T username with
        | (_, Some err) => (ServerError err, T)
        | (None, None) =>
            (Message ("no account found with that username: " +:+ username), T)
        | (Some acc, None) =>
            match GetBookmarkCollectionIDs F T acc with
            | (_, Some err) => (ServerError err, T)
            | (col, None) => (bookmarks_of F T col, T)
            end
        end
    end
  else if decide (Method r = MethodPost) then
    match Decode r with
    | inl err => (ServerError err, T)
    | inr payload =>
        match ExistingAccount F T (Username payload) with
        | (_, Some err) => (ServerError err, T)
        | (None, None) =>
            (Message ("no account found with that username: " +:+ Username payload), T)
        | (Some acc, None) =>
            match IDsFromNames F T (Locations payload) with
            | (_, Some err) => (ServerError err, T)
            | (newIDs, None) =>
                match UpdateBookmarkCollectionIDs F T acc (default [] newIDs) with
                | (_, Some err, T) => (ServerError err, T)
                | (col, None, T) => (bookmarks_of F T col, T)
                end
            end
        end
    end
  else (MethodNotAllowed errMethodMustBeGETorPOST, T).

Definition no_faults : Faults :=
  {| FailNewAccount := None; FailExistingAccount := None;
     FailNewBookmarkCollection := None; FailGetBookmarkCollectionIDs := None;
     FailUpdateBookmarkCollectionIDs := None; FailNamesFromIDs := None;
     FailIDsFromNames := None |}.

End Accounts.

(** ** Accounts: sample data *)

Module AccountScenario.

Import Accounts.

Definition foobar : AccountRow :=
  {| Name := string_of "foobar"; AccountID := int64_of 1 |}.

Definition place (id : Z) (name : string) : LocationRow :=
  {| ID := int64_of id; QueryCount := int64_of 1; CityName := string_of name |}.

Definition cities : list LocationRow := [place 1 "Reno"; place 2 "Oslo"].

(** No account yet. *)
Definition fresh : Tables :=
  {| accounts := []; accounts_id_seq := 0; bookmarks := []; places := cities |}.

(** The account [foobar] without a row in [bookmarks]. *)
Definition orphan : Tables :=
  {| accounts := [foobar]; accounts_id_seq := 1; bookmarks := []; places := cities |}.

(** The account [foobar] with Reno bookmarked. *)
Definition registered : Tables :=
  {| accounts := [foobar]; accounts_id_seq := 1;
     bookmarks := [{| BookmarkID := int64_of 1; LocationIDs := Some [1] |}];
     places := cities |}.

(** [GET ...?username=<username>] *)
Definition get {Payload} (username : string) : Request Payload :=
  {| Accounts.Method := MethodGet;
     Accounts.ParseQuery := inr {[ "username" := [username] ]};
     Decode := inl (ErrOther "EOF") |}.

(** [POST] with a decoded body. *)
Definition post {Payload} (body : Payload) : Request Payload :=
  {| Accounts.Method := MethodPost; Accounts.ParseQuery := inr ∅; Decode := inr body |}.

Definition register (username : string) : Request (gmap string string) :=
  post {[ "username" := username ]}.

Definition bookmark_insert_fails (err : Err) : Faults :=
  {| FailNewAccount := None; FailExistingAccount := None;
     FailNewBookmarkCollection := Some err; FailGetBookmarkCollectionIDs := None;
     FailUpdateBookmarkCollectionIDs := None; FailNamesFromIDs := None;
     FailIDsFromNames := None |}.

End AccountScenario.

(** ** Executing the statements of a file *)

Module Exec.

(** [strings.Split(s, ";")]: the pieces of [s] between the separators, one
    more than there are separators. *)
Fixpoint Split (s : string) : list string :=
  match s with
  | EmptyString => [EmptyString]
  | String.String c rest =>
      if Ascii.eqb c (Ascii.ascii_of_nat 59) then EmptyString :: Split rest
      else
        match Split rest with
        | piece :: pieces => String.String c piece :: pieces
        | [] => [String.String c EmptyString]
        end
  end.

(** [strings.Join(pieces, ";")] *)
Fixpoint Join (pieces : list string) : string :=
  match pieces with
  | [] => EmptyString
  | [piece] => piece
  | piece :: pieces => piece +:+ String.String (Ascii.ascii_of_nat 59) (Join pieces)
  end.

(** What the driver answers to [Prepare] and to [Exec] of a statement. *)
Record Driver : Type := {
  PrepareErr : string → error;
  ExecErr : string → error
}.

(** The outcome of [ExecFrom]: its error, the statements that were executed,
    in their order, and the prepared statements that were not closed. *)
Record Ran : Type := {
  ran_err : error;
  executed : list string;
  unclosed : list string
}.

(** The loop [for _, cmd := range cmds] *)
Fixpoint range_cmds (D : Driver) (cmds : list string) (ran : list string) : Ran :=
  match cmds with
  | [] => {| ran_err := None; executed := ran; unclosed := [] |}
  | cmd :: cmds =>
      match PrepareErr D cmd with
      | Some err => {| ran_err := Some err; executed := ran; unclosed := [] |}
      | None =>
          match ExecErr D cmd with
          | Some err => {| ran_err := Some err; executed := ran; unclosed := [cmd] |}
          | None => range_cmds D cmds (ran ++ [cmd])
          end
      end
  end.

(** [ExecFrom]; [file] is what [ioutil.ReadFile(filepath)] returns. *)
Definition ExecFrom (D : Driver) (file : Err + string) : Ran :=
  match file with
  | inl err => {| ran_err := Some err; executed := []; unclosed := [] |}
  | inr raw => range_cmds D (Split raw) []
  end.

End Exec.

(** * Facts *)

(** ** The nested result: [InitialiseForDate] and [Add] *)

Section NestedResult.

Implicit Types (q : LocationTemperatureQueryResult) (city c : string) (y mo d : Z).

Lemma leaf_month_at q city y mo d :
  leaf q city y mo d = month_at q city y mo ≫= λ ds, ds !! d.
Proof.
  unfold leaf, month_at.
  destruct (q !! city) as [ys|]; simpl; [|done].
  by destruct (ys !! y) as [ms|].
Qed.

Lemma at_month_month_at q city y mo :
  at_month q city y mo = default ∅ (month_at q city y mo).
Proof.
  unfold at_month, at_year, at_city, month_at.
  destruct (q !! city) as [ys|]; simpl; [|done].
  by destruct (ys !! y) as [ms|].
Qed.

Lemma at_day_leaf q city y mo d :
  at_day q city y mo d = default [] (leaf q city y mo d).
Proof.
  unfold at_day. rewrite at_month_month_at, leaf_month_at.
  by destruct (month_at q city y mo).
Qed.

(** Closes the case of a month that differs from the updated one in a key. *)
Ltac off_path :=
  rewrite lookup_insert_ne by done;
  case_decide; [destruct_and!; congruence | done].

(** The assignment [q[city][y][mo][d] = v] on a month that exists replaces
    that month's day map and no other month. *)
Lemma assign_day_spec q city y mo d v ds :
  month_at q city y mo = Some ds →
  ∃ q', assign_day q city y mo d v = Some q' ∧
        ∀ c' y' m',
          month_at q' c' y' m' =
          if decide (c' = city ∧ y' = y ∧ m' = mo)
          then Some (<[d := v]> ds) else month_at q c' y' m'.
Proof.
  unfold month_at, assign_day. intros H.
  destruct (q !! city) as [ys|] eqn:E1; simpl in *; [|done].
  destruct (ys !! y) as [ms|] eqn:E2; simpl in *; [|done].
  rewrite H. simpl. eexists; split; [done|].
  intros c' y' m'.
  destruct (decide (c' = city)) as [->|Hc]; [|off_path].
  rewrite lookup_insert_eq, E1; simpl.
  destruct (decide (y' = y)) as [->|Hy]; [|off_path].
  rewrite lookup_insert_eq, E2; simpl.
  destruct (decide (m' = mo)) as [->|Hm]; [|off_path].
  rewrite lookup_insert_eq. by rewrite decide_True.
Qed.

(** The three outer guarded assignments of [InitialiseForDate] create a
    missing level as an empty map. *)
Lemma ensure_city q city :
  ∃ q', match q !! city with Some _ => Some q | None => assign_city q city ∅ end = Some q' ∧
        is_Some (q' !! city) ∧
        ∀ c' y' m', month_at q' c' y' m' = month_at q c' y' m'.
Proof.
  destruct (q !! city) as [ys|] eqn:E.
  - exists q. rewrite E. eauto.
  - eexists; split; [done|]. split; [by rewrite lookup_insert_eq|].
    intros c' y' m'. unfold month_at.
    destruct (decide (c' = city)) as [->|Hc].
    + by rewrite lookup_insert_eq, E.
    + by rewrite lookup_insert_ne.
Qed.

Lemma ensure_year q city y :
  is_Some (q !! city) →
  ∃ q', match at_city q city !! y with Some _ => Some q | None => assign_year q city y ∅ end
        = Some q' ∧
        is_Some (q' !! city ≫= λ ys, ys !! y) ∧
        ∀ c' y' m', month_at q' c' y' m' = month_at q c' y' m'.
Proof.
  intros [ys E]. unfold at_city, assign_year. rewrite E. simpl.
  destruct (ys !! y) as [ms|] eqn:E2.
  - exists q. rewrite E. simpl. rewrite E2. eauto.
  - eexists; split; [done|]. split.
    { rewrite lookup_insert_eq. simpl. by rewrite lookup_insert_eq. }
    intros c' y' m'. unfold month_at.
    destruct (decide (c' = city)) as [->|Hc]; [|by rewrite lookup_insert_ne].
    rewrite lookup_insert_eq, E. simpl.
    destruct (decide (y' = y)) as [->|Hy].
    + by rewrite lookup_insert_eq, E2.
    + by rewrite lookup_insert_ne.
Qed.

Lemma ensure_month q city y mo :
  is_Some (q !! city ≫= λ ys, ys !! y) →
  ∃ q', match at_year q city y !! mo with Some _ => Some q | None => assign_month q city y mo ∅ end
        = Some q' ∧
        ∀ c' y' m',
          month_at q' c' y' m' =
          if decide (c' = city ∧ y' = y ∧ m' = mo)
          then Some (default ∅ (month_at q city y mo)) else month_at q c' y' m'.
Proof.
  intros [ms E]. unfold at_year, at_city, assign_month, month_at.
  destruct (q !! city) as [ys|] eqn:E1; simpl in *; [|done].
  rewrite E. simpl.
  destruct (ms !! mo) as [ds|] eqn:E3.
  - exists q. split; [done|]. intros c' y' m'.
    case_decide as Hp; [|done]. destruct Hp as (-> & -> & ->).
    rewrite E1. simpl. rewrite E. simpl. by rewrite E3.
  - simpl. eexists; split; [done|].
    intros c' y' m'.
    destruct (decide (c' = city)) as [->|Hc]; [|off_path].
    rewrite lookup_insert_eq, E1. simpl.
    destruct (decide (y' = y)) as [->|Hy]; [|off_path].
    rewrite lookup_insert_eq, E. simpl.
    destruct (decide (m' = mo)) as [->|Hm]; [|off_path].
    rewrite lookup_insert_eq. by rewrite decide_True.
Qed.

(** [InitialiseForDate] returns, and what it returns: the month of the path
    holds the day map it had (none reads as the empty one) with the day
    ensured, and every other month is as it was. *)
Lemma InitialiseForDate_months q city y mo d :
  ∃ q', InitialiseForDate q city y mo d = Some q' ∧
        ∀ c' y' m',
          month_at q' c' y' m' =
          if decide (c' = city ∧ y' = y ∧ m' = mo)
          then Some (ensure_day d (default ∅ (month_at q city y mo)))
          else month_at q c' y' m'.
Proof.
  unfold InitialiseForDate.
  destruct (ensure_city q city) as (q1 & -> & H1 & L1). simpl.
  destruct (ensure_year q1 city y H1) as (q2 & -> & H2 & L2). simpl.
  destruct (ensure_month q2 city y mo H2) as (q3 & -> & L3). simpl.
  assert (H3 : month_at q3 city y mo = Some (default ∅ (month_at q city y mo))).
  { by rewrite L3, decide_True, L2, L1. }
  assert (Hq : ∀ c' y' m', ¬ (c' = city ∧ y' = y ∧ m' = mo) →
                           month_at q3 c' y' m' = month_at q c' y' m').
  { intros. by rewrite L3, decide_False, L2, L1. }
  rewrite at_month_month_at, H3. simpl. unfold ensure_day.
  destruct (default ∅ (month_at q city y mo) !! d) as [l|] eqn:E4.
  - exists q3. split; [done|]. intros c' y' m'.
    case_decide as Hp; [|by apply Hq]. by destruct Hp as (-> & -> & ->).
  - destruct (assign_day_spec q3 city y mo d [] _ H3) as (q4 & -> & L4).
    exists q4. split; [done|]. intros c' y' m'. rewrite L4.
    case_decide; [done|by apply Hq].
Qed.

(** The same, leaf by leaf: the leaf of the path holds what the path read as
    before (the nil slice when it was missing), every other leaf is as it
    was. *)
Lemma InitialiseForDate_spec q city y mo d :
  ∃ q', InitialiseForDate q city y mo d = Some q' ∧
        is_Some (month_at q' city y mo) ∧
        ∀ c' y' m' d',
          leaf q' c' y' m' d' =
          if decide (c' = city ∧ y' = y ∧ m' = mo ∧ d' = d)
          then Some (at_day q city y mo d) else leaf q c' y' m' d'.
Proof.
  destruct (InitialiseForDate_months q city y mo d) as (q' & E & L).
  exists q'. split; [done|]. split; [by rewrite L, decide_True|].
  intros c' y' m' d'. rewrite !leaf_month_at, L, at_day_leaf, leaf_month_at.
  unfold ensure_day.
  destruct (decide (c' = city ∧ y' = y ∧ m' = mo)) as [(-> & -> & ->)|Hp].
  2:{ rewrite decide_False; [done|]. intros (? & ? & ? & ?). by apply Hp. }
  simpl. destruct (month_at q city y mo) as [ds|]; simpl.
  - destruct (ds !! d) as [l|] eqn:E4; simpl.
    + case_decide as Hp; [|done]. destruct Hp as (_ & _ & _ & ->). done.
    + case_decide as Hp.
      * destruct Hp as (_ & _ & _ & ->). by rewrite lookup_insert_eq.
      * rewrite lookup_insert_ne; [done|]. intros ->. by apply Hp.
  - rewrite lookup_empty. case_decide as Hp.
    + destruct Hp as (_ & _ & _ & ->). by rewrite lookup_insert_eq.
    + rewrite lookup_insert_ne; [done|]. intros ->. by apply Hp.
Qed.

(** On a path that exists [InitialiseForDate] changes nothing. *)
Lemma InitialiseForDate_noop q city y mo d :
  is_Some (leaf q city y mo d) → InitialiseForDate q city y mo d = Some q.
Proof.
  intros [l H]. unfold InitialiseForDate, leaf, at_month, at_year, at_city in *.
  destruct (q !! city) as [ys|] eqn:E1; simpl in *; [|done]. rewrite E1. simpl.
  destruct (ys !! y) as [ms|] eqn:E2; simpl in *; [|done]. rewrite E1. simpl. rewrite E2. simpl.
  destruct (ms !! mo) as [ds|] eqn:E3; simpl in *; [|done].
  rewrite E1. simpl. rewrite E2. simpl. rewrite E3. simpl. by rewrite H.
Qed.

(** [Add] on a path whose month exists, month by month and leaf by leaf. *)
Lemma Add_months q temp city y mo d ds :
  month_at q city y mo = Some ds →
  ∃ q', Add q temp city y mo d = Some q' ∧
        ∀ c' y' m',
          month_at q' c' y' m' =
          if decide (c' = city ∧ y' = y ∧ m' = mo)
          then Some (<[d := default [] (ds !! d) ++ [temp]]> ds)
          else month_at q c' y' m'.
Proof.
  intros H. unfold Add.
  destruct (assign_day_spec q city y mo d (at_day q city y mo d ++ [temp]) ds H)
    as (q' & -> & L).
  exists q'. split; [done|]. intros c' y' m'. rewrite L.
  case_decide; [|done]. by rewrite at_day_leaf, leaf_month_at, H.
Qed.

Lemma Add_spec q temp city y mo d :
  is_Some (month_at q city y mo) →
  ∃ q', Add q temp city y mo d = Some q' ∧
        is_Some (month_at q' city y mo) ∧
        ∀ c' y' m' d',
          leaf q' c' y' m' d' =
          if decide (c' = city ∧ y' = y ∧ m' = mo ∧ d' = d)
          then Some (at_day q city y mo d ++ [temp]) else leaf q c' y' m' d'.
Proof.
  intros [ds H].
  destruct (Add_months q temp city y mo d ds H) as (q' & E & L).
  exists q'. split; [done|]. split; [by rewrite L, decide_True|].
  intros c' y' m' d'. rewrite !leaf_month_at, L, at_day_leaf, leaf_month_at, H.
  destruct (decide (c' = city ∧ y' = y ∧ m' = mo)) as [(-> & -> & ->)|Hp].
  2:{ rewrite decide_False; [done|]. intros (? & ? & ? & ?). by apply Hp. }
  simpl. rewrite H. simpl. case_decide as Hp.
  - destruct Hp as (_ & _ & _ & ->). by rewrite lookup_insert_eq.
  - rewrite lookup_insert_ne; [done|]. intros ->. by apply Hp.
Qed.

(** [Add] on a path whose month is missing: the assignment is into a nil map. *)
Lemma Add_panics q temp city y mo d :
  month_at q city y mo = None → Add q temp city y mo d = None.
Proof.
  unfold Add, assign_day, month_at. intros H.
  destruct (q !! city) as [ys|]; simpl in *; [|done].
  destruct (ys !! y) as [ms|]; simpl in *; [|done].
  by rewrite H.
Qed.

(** C8: [InitialiseForDate] is idempotent.  The call returns a map [q1]; a
    second call for the same path returns [q1] again, unchanged; every leaf
    of the map it was given is still there with the same samples; and the
    leaves of [q1] are those of the given map and the leaf of the path, each
    once (a [gmap] holds one value per key). *)
Theorem InitialiseForDate_idempotent q city y mo d :
  ∃ q1, InitialiseForDate q city y mo d = Some q1 ∧
        InitialiseForDate q1 city y mo d = Some q1 ∧
        (∀ c' y' m' d' l,
           leaf q c' y' m' d' = Some l → leaf q1 c' y' m' d' = Some l) ∧
        (∀ c' y' m' d',
           is_Some (leaf q1 c' y' m' d') ↔
           (c' = city ∧ y' = y ∧ m' = mo ∧ d' = d) ∨ is_Some (leaf q c' y' m' d')).
Proof.
  destruct (InitialiseForDate_spec q city y mo d) as (q1 & E & _ & L).
  exists q1. split; [done|]. split; [|split].
  - apply InitialiseForDate_noop. rewrite L. by rewrite decide_True.
  - intros c' y' m' d' l H. rewrite L. case_decide as Hp; [|done].
    destruct Hp as (-> & -> & -> & ->). by rewrite at_day_leaf, H.
  - intros c' y' m' d'. rewrite L. case_decide as Hp.
    + split; [by left | by eauto].
    + split; [by right | by intros [?|?]].
Qed.

(** [InitialiseForDate] for a new day next to a day that holds a sample. *)
Lemma InitialiseForDate_idempotent_witness :
  leaf Scenario.one_sample Scenario.Reno 2019 3 29 = Some [281.5%float] ∧
  ∃ q1, InitialiseForDate Scenario.one_sample Scenario.Reno 2019 3 28 = Some q1 ∧
        InitialiseForDate q1 Scenario.Reno 2019 3 28 = Some q1 ∧
        leaf q1 Scenario.Reno 2019 3 29 = Some [281.5%float] ∧
        is_Some (leaf q1 Scenario.Reno 2019 3 28).
Proof.
  assert (H : leaf Scenario.one_sample Scenario.Reno 2019 3 29 = Some [281.5%float])
    by (vm_compute; reflexivity).
  split; [exact H|].
  destruct (InitialiseForDate_idempotent Scenario.one_sample Scenario.Reno 2019 3 28)
    as (q1 & E1 & E2 & Hkeep & Hdom).
  exists q1. split; [exact E1|]. split; [exact E2|]. split.
  - apply Hkeep, H.
  - apply Hdom. left. repeat split.
Defined.

(** [InitialiseForDate] followed by [Add] on the same path: it returns, the
    path's leaf gains the sample, the others stay. *)
Lemma InitialiseForDate_Add q temp city y mo d :
  ∃ q1 q2, InitialiseForDate q city y mo d = Some q1 ∧
           Add q1 temp city y mo d = Some q2 ∧
           ∀ c' y' m' d',
             leaf q2 c' y' m' d' =
             if decide (c' = city ∧ y' = y ∧ m' = mo ∧ d' = d)
             then Some (at_day q city y mo d ++ [temp]) else leaf q c' y' m' d'.
Proof.
  destruct (InitialiseForDate_spec q city y mo d) as (q1 & E1 & H1 & L1).
  destruct (Add_spec q1 temp city y mo d H1) as (q2 & E2 & _ & L2).
  exists q1, q2. split; [done|]. split; [done|].
  intros c' y' m' d'. rewrite L2, L1.
  case_decide as Hp; [|done].
  rewrite (at_day_leaf q1), L1, decide_True by done. done.
Qed.









End NestedResult.

(** ** The temperature reports *)

Section Reports.

Implicit Types (q temps : LocationTemperatureQueryResult) (rows : list Scanned).

(** Rewrites the [InitialiseForDate] and the [Add] of a loop body with the
    maps they return. *)
Ltac init_then_add q temp city y mo d :=
  let q1 := fresh "q1" in
  let q2 := fresh "q2" in
  let E1 := fresh "E1" in
  let E2 := fresh "E2" in
  let L := fresh "L" in
  destruct (InitialiseForDate_Add q temp city y mo d) as (q1 & q2 & E1 & E2 & L);
  rewrite ?E1; simpl; rewrite ?E2; simpl.

Lemma MonthlyTemperature_rows_returns param rows temps :
  ∃ r, MonthlyTemperature_rows param rows temps = Some r.
Proof.
  revert temps. induction rows as [|[r|e] rows IH]; intros temps; simpl; [by eauto| |by eauto].
  destruct (StringValid (cname r)); simpl; [|by apply IH].
  init_then_add temps (Float64 (column param r)) (String (cname r))
    (Year (t r)) (Month (t r)) (Day (t r)).
  destruct (Float64Valid (column param r)); simpl; apply IH.
Qed.





Lemma MonthlyTemperature_returns f conn :
  ∃ r, MonthlyTemperature f conn = Some r.
Proof.
  unfold MonthlyTemperature.
  repeat case_decide; destruct conn; eauto using MonthlyTemperature_rows_returns.
Qed.



(** *** The averaging loop *)




(** Reading a month of a map built by three nested insertions. *)
Lemma month_at_insert (dm : LocationTemperatureQueryResult) c ym y mm c' y' m' :
  month_at (<[c := <[y := mm]> ym]> dm) c' y' m' =
  if decide (c' = c)
  then if decide (y' = y) then mm !! m' else ym !! y' ≫= λ ms, ms !! m'
  else month_at dm c' y' m'.
Proof.
  unfold month_at. case_decide as Hc; [subst|by rewrite lookup_insert_ne].
  rewrite lookup_insert_eq. simpl.
  case_decide as Hy; [subst|by rewrite lookup_insert_ne].
  by rewrite lookup_insert_eq.
Qed.

(** What the second loop stores: for each month of [dailyAvgTemps], the
    value [month_avg] computes for it, alone, at day 0, and nothing else. *)
Lemma monthlyAvgTemps_of_leaf daily :
  ∃ q, monthlyAvgTemps_of daily = Some q ∧
       ∀ c y m d,
         leaf q c y m d =
         if decide (d = 0)
         then (λ month, [month_avg month]) <$> month_at daily c y m
         else None.
Proof.
  set (Inv := λ (acc : option LocationTemperatureQueryResult)
                (part : LocationTemperatureQueryResult),
         ∃ q, acc = Some q ∧
              ∀ c y m d,
                leaf q c y m d =
                if decide (d = 0)
                then (λ month, [month_avg month]) <$> month_at part c y m
                else None).
  change (Inv (monthlyAvgTemps_of daily) daily).
  unfold monthlyAvgTemps_of.
  apply (map_fold_weak_ind Inv).
  { exists ∅. split; [done|]. intros c y m d. unfold leaf, month_at.
    rewrite lookup_empty. simpl. by case_decide. }
  intros c cities dm acc Hc Hacc.
  apply (map_fold_weak_ind (λ acc ym, Inv acc (<[c := ym]> dm))).
  { destruct Hacc as (q & -> & L). exists q. split; [done|].
    intros c' y' m' d'. rewrite L. case_decide; [|done]. f_equal.
    unfold month_at. destruct (decide (c' = c)) as [->|].
    - by rewrite lookup_insert_eq, Hc.
    - by rewrite lookup_insert_ne. }
  clear acc Hacc. intros y year ym acc Hy Hacc.
  apply (map_fold_weak_ind (λ acc mm, Inv acc (<[c := <[y := mm]> ym]> dm))).
  { destruct Hacc as (q & -> & L). exists q. split; [done|].
    intros c' y' m' d'. rewrite L. case_decide; [|done]. f_equal.
    rewrite month_at_insert. unfold month_at.
    destruct (decide (c' = c)) as [->|]; [|by rewrite lookup_insert_ne].
    rewrite lookup_insert_eq. simpl.
    destruct (decide (y' = y)) as [->|]; [|done].
    by rewrite Hy, lookup_empty. }
  clear acc Hacc. intros m month mm acc Hm (q & -> & L). simpl.
  destruct (InitialiseForDate_Add q (month_avg month) c y m 0)
    as (q1 & q2 & E1 & E2 & L2).
  rewrite E1. simpl. exists q2. split; [exact E2|].
  assert (Hold : at_day q c y m 0 = []).
  { rewrite at_day_leaf, L, decide_True by done.
    rewrite month_at_insert, !decide_True by done. by rewrite Hm. }
  intros c' y' m' d'. rewrite L2, Hold, L, !month_at_insert. simpl.
  destruct (decide (c' = c ∧ y' = y ∧ m' = m ∧ d' = 0)) as [(-> & -> & -> & ->)|Hp].
  { rewrite !decide_True by done. by rewrite lookup_insert_eq. }
  case_decide as Hd; [subst d'|done]. f_equal.
  case_decide as Hc'; [subst c'|done].
  case_decide as Hy'; [subst y'|done].
  rewrite lookup_insert_ne; [done|]. intros ->. by apply Hp.
Qed.



(** What [MonthlyAverageTemperature] returns once the first loop has built
    [daily]: for every month of [daily] the value of [month_avg], alone, at
    day 0. *)
Lemma MonthlyAverageTemperature_stores_month_avg rows daily :
  dailyAvgTemps_rows rows ∅ = Some (inr daily) →
  ∃ q, MonthlyAverageTemperature (Rows rows) = Some (Some q, None) ∧
       ∀ c y m d,
         leaf q c y m d =
         if decide (d = 0)
         then (λ month, [month_avg month]) <$> month_at daily c y m
         else None.
Proof.
  intros H. simpl. rewrite H. simpl.
  destruct (monthlyAvgTemps_of_leaf daily) as (q & -> & L).
  exists q. split; [reflexivity|exact L].
Qed.

(** C1 (the code at the spec's example): for the daily samples
    {day 1: [10, 20], day 2: [30]} of one month, [MonthlyAverageTemperature]
    stores 60 / 3 / 2 = 10 at day 0, while the two-stage average of that
    month is 22.5 and the flat mean of its samples is 20. *)
Theorem MonthlyAverageTemperature_two_days :
  dailyAvgTemps_rows Scenario.two_days ∅
  = Some (inr (<[Scenario.Reno := <[2019 := <[3 := Scenario.two_days_month]> ∅]> ∅]> ∅)) ∧
  Scenario.report_leaf (MonthlyAverageTemperature (Rows Scenario.two_days))
    Scenario.Reno 2019 3 0 = Some [10%float] ∧
  month_avg Scenario.two_days_month = (60 / 3 / 2)%float ∧
  Spec.two_stage_average Scenario.two_days_month = 22.5%float ∧
  Spec.flat_mean Scenario.two_days_month = 20%float ∧
  PrimFloat.eqb (month_avg Scenario.two_days_month)
                (Spec.two_stage_average Scenario.two_days_month) = false.
Proof. repeat split; vm_compute; reflexivity. Qed.




(** C4 (the code at a month without samples): for a single reading with a
    city name and null temperatures the averaging loop counts one day and no
    sample, divides 0 by [float64(0)], and stores the resulting NaN. *)
Theorem MonthlyAverageTemperature_null_reading_nan :
  dailyAvgTemps_rows Scenario.null_reading ∅
  = Some (inr (<[Scenario.Reno := <[2019 := <[3 := <[29 := []]> ∅]> ∅]> ∅]> ∅)) ∧
  samplesPerMonth (range_month (<[29 := []]> ∅)) = 1 ∧
  samplesPerDay (range_month (<[29 := []]> ∅)) = 0 ∧
  Scenario.report_leaf (MonthlyAverageTemperature (Rows Scenario.null_reading))
    Scenario.Reno 2019 3 0 = Some [nan] ∧
  PrimFloat.is_nan (month_avg (<[29 := []]> ∅)) = true.
Proof. repeat split; vm_compute; reflexivity. Qed.

(** C10: [Add] is defined exactly on the paths whose intermediate maps
    exist.  There it stores the samples the path read as before, followed by
    the new one, and leaves every other leaf alone; elsewhere the assignment
    is into a nil map and the call panics.  [InitialiseForDate] establishes
    the precondition, and the loop of [MonthlyTemperature], which calls it
    before every [Add], never panics. *)
Theorem Add_defined_iff_path_initialised q temp city y mo d :
  (is_Some (month_at q city y mo) →
   ∃ q', Add q temp city y mo d = Some q' ∧
         leaf q' city y mo d = Some (default [] (leaf q city y mo d) ++ [temp]) ∧
         ∀ c' y' m' d', ¬ (c' = city ∧ y' = y ∧ m' = mo ∧ d' = d) →
                        leaf q' c' y' m' d' = leaf q c' y' m' d') ∧
  (month_at q city y mo = None → Add q temp city y mo d = None) ∧
  (∃ q1, InitialiseForDate q city y mo d = Some q1 ∧
         is_Some (month_at q1 city y mo) ∧
         is_Some (Add q1 temp city y mo d)) ∧
  (∀ f conn, is_Some (MonthlyTemperature f conn)).
Proof.
  split; [|split; [|split]].
  - intros H. destruct (Add_spec q temp city y mo d H) as (q' & E & _ & L).
    exists q'. split; [done|]. split.
    + by rewrite L, decide_True, at_day_leaf.
    + intros c' y' m' d' Hp. by rewrite L, decide_False.
  - apply Add_panics.
  - destruct (InitialiseForDate_spec q city y mo d) as (q1 & E & H & _).
    exists q1. split; [done|]. split; [done|].
    destruct (Add_spec q1 temp city y mo d H) as (q' & -> & _). eauto.
  - intros f conn. destruct (MonthlyTemperature_returns f conn) as [r ->]. eauto.
Qed.

(** [Add] on a path that exists, and on an empty result. *)
Lemma Add_defined_iff_path_initialised_witness :
  (∃ q', Add Scenario.one_sample 283 Scenario.Reno 2019 3 29 = Some q' ∧
         leaf q' Scenario.Reno 2019 3 29 = Some [281.5; 283]%float) ∧
  Add ∅ 283 Scenario.Reno 2019 3 29 = None.
Proof.
  destruct (Add_defined_iff_path_initialised Scenario.one_sample 283 Scenario.Reno 2019 3 29)
    as (Hadd & _).
  destruct (Add_defined_iff_path_initialised ∅ 283 Scenario.Reno 2019 3 29)
    as (_ & Hpanic & _).
  split.
  - destruct Hadd as (q' & E & L & _); [vm_compute; eauto|].
    exists q'. split; [exact E|]. rewrite L. vm_compute. reflexivity.
  - apply Hpanic. reflexivity.
Defined.

End Reports.

(** ** The store: lookup and write-back *)

Section Store.

Implicit Types (db : Database) (F : TxnFaults) (cityName : string).

(** The switch of [FetchLocationWeather] never reaches its [default]: the
    case [err] compares the tag with itself.  The function returns no rows,
    with the error of [Scan] unless that is [sql.ErrNoRows]. *)
Lemma FetchLocationWeather_returns_no_rows fault db cityName :
  ∃ err, FetchLocationWeather fault db cityName = (None, err) ∧ err ≠ Some ErrNoRows.
Proof.
  unfold FetchLocationWeather.
  destruct (scan_row fault (FetchLocationWeather_query db cityName)) as [row err].
  destruct (match row with Some r => r | None => (zero_location, zero_weather) end)
    as [lr wr].
  destruct (decide (err = Some ErrNoRows)); [by exists None|].
  rewrite decide_True by done. by exists err.
Qed.

(** The rows the query selects for a city: any location row of that name
    with any reading whose time is the latest of the whole [weather] table.
    Nothing relates the reading to the location. *)
Lemma FetchLocationWeather_query_spec db cityName l w :
  (l, w) ∈ FetchLocationWeather_query db cityName ↔
  l ∈ locations db ∧ w ∈ Db.weather db ∧
  city_name_is cityName l = true ∧
  Some (UnixNano (AtTime w)) = max_at_time (Db.weather db).
Proof.
  unfold FetchLocationWeather_query. rewrite list_elem_of_bind. split.
  - intros (l' & Hin & Hl). apply list_elem_of_bind in Hin as (w' & Hin & Hw).
    destruct (city_name_is cityName l') eqn:Hc; simpl in Hin;
      [|by apply elem_of_nil in Hin].
    case_bool_decide as Hmax; simpl in Hin; [|by apply elem_of_nil in Hin].
    apply list_elem_of_singleton in Hin as [= -> ->]. done.
  - intros (Hl & Hw & Hc & Hmax). exists l. split; [|done].
    apply list_elem_of_bind. exists w. split; [|done].
    rewrite Hc, bool_decide_true by done. simpl. apply list_elem_of_here.
Qed.

(** C5 (the code at two cities): Reno was read at second 0 and Oslo at second
    20.  The query for Reno selects one row, Reno's location joined with
    Oslo's reading, the latest of the whole table; Reno's own reading is not
    selected.  [FetchLocationWeather] then returns neither rows nor an
    error. *)
Theorem FetchLocationWeather_two_cities :
  FetchLocationWeather_query Scenario.two_cities Scenario.Reno
  = [(Scenario.reno_row, Scenario.oslo_reading)] ∧
  Int64 (LocationRowID Scenario.oslo_reading) = 2 ∧
  Int64 (ID Scenario.reno_row) = 1 ∧
  FetchLocationWeather None Scenario.two_cities Scenario.Reno = (None, None).
Proof. repeat split; vm_compute; reflexivity. Qed.

(** X26: a failure before the insert of the reading ends in a rollback: the
    store is as it was and the error is returned. *)
Lemma UpdateCachedLocationWeather_rollback F now db cityName tempMin tempMax labels e :
  FailBegin F = None →
  FailPrepareLocation F = Some e ∨
  (FailPrepareLocation F = None ∧ FailLocationUpsert F = Some e) ∨
  (FailPrepareLocation F = None ∧ FailLocationUpsert F = None ∧
   FailPrepareWeather F = Some e) →
  UpdateCachedLocationWeather F now db cityName tempMin tempMax labels
  = {| upd_result := None; upd_err := Some e; upd_db := db; upd_end := Some Rollback |}.
Proof.
  intros Hb H. unfold UpdateCachedLocationWeather. rewrite Hb.
  destruct (upsert_location (locations db) (next_id (locations db)) cityName 1) as [ls lr].
  destruct H as [H1|[[H1 H2]|(H1 & H2 & H3)]].
  - rewrite H1. by rewrite decide_True.
  - rewrite H1, H2. rewrite decide_False by (by intros ?). by rewrite decide_True.
  - rewrite H1, H2, H3. rewrite !decide_False by (by intros ?). by rewrite decide_True.
Qed.

(** Without a failure both rows are written and committed together. *)
Lemma UpdateCachedLocationWeather_commit now db cityName tempMin tempMax labels :
  let u := UpdateCachedLocationWeather Scenario.no_txn_faults now db cityName
             tempMin tempMax labels in
  let '(ls, lr) := upsert_location (locations db) (next_id (locations db)) cityName 1 in
  let wr := {| LocationRowID := ID lr; TempHigh := float64_of tempMax;
               TempLow := float64_of tempMin; Labels := labels; AtTime := now |} in
  upd_err u = None ∧ upd_end u = Some Commit ∧
  upd_db u = {| locations := ls; Db.weather := Db.weather db ++ [wr] |}.
Proof.
  unfold UpdateCachedLocationWeather. simpl.
  by destruct (upsert_location (locations db) (next_id (locations db)) cityName 1) as [ls lr].
Qed.

(** When the insert of the reading fails after the upsert of the location
    succeeded, the deferred function finds the function's [err] unset, the
    error being held by the [err] of the [if]: it commits.  The caller gets
    the error, and the store holds the upsert without a reading. *)
Lemma UpdateCachedLocationWeather_insert_fails F now db cityName tempMin tempMax labels e :
  FailBegin F = None → FailPrepareLocation F = None → FailLocationUpsert F = None →
  FailPrepareWeather F = None → FailWeatherInsert F = Some e → FailCommit F = None →
  let u := UpdateCachedLocationWeather F now db cityName tempMin tempMax labels in
  upd_result u = None ∧ upd_err u = Some e ∧ upd_end u = Some Commit ∧
  upd_db u = {| locations := (upsert_location (locations db) (next_id (locations db))
                                cityName 1).1;
                Db.weather := Db.weather db |}.
Proof.
  intros H1 H2 H3 H4 H5 H6. unfold UpdateCachedLocationWeather.
  rewrite H1, H2, H3, H4, H5.
  destruct (upsert_location (locations db) (next_id (locations db)) cityName 1) as [ls lr].
  rewrite !decide_False by (by intros ?). rewrite decide_True by done.
  unfold deferred. by rewrite H6.
Qed.


(** C9: when [GlobalConn.Begin] fails the function returns a nil
    [QueryResult] and a nil error, not the error of [Begin]; no transaction
    was opened and the store is as it was. *)
Theorem UpdateCachedLocationWeather_begin_fails F now db cityName tempMin tempMax labels
    (txnError : Err) :
  FailBegin F = Some txnError →
  let u := UpdateCachedLocationWeather F now db cityName tempMin tempMax labels in
  upd_result u = None ∧ upd_err u = None ∧ upd_db u = db ∧ upd_end u = None.
Proof. intros H. unfold UpdateCachedLocationWeather. by rewrite H. Qed.

Lemma UpdateCachedLocationWeather_begin_fails_witness :
  FailBegin Scenario.begin_fails = Some (ErrOther "pq: connection refused") ∧
  let u := UpdateCachedLocationWeather Scenario.begin_fails (Scenario.at_second 90)
             Scenario.reno_only Scenario.Reno 274 278 ["Clear"] in
  upd_result u = None ∧ upd_err u = None ∧ upd_db u = Scenario.reno_only ∧ upd_end u = None.
Proof.
  split; [reflexivity|].
  apply (UpdateCachedLocationWeather_begin_fails Scenario.begin_fails
           (Scenario.at_second 90) Scenario.reno_only Scenario.Reno 274 278 ["Clear"]
           (ErrOther "pq: connection refused")).
  reflexivity.
Defined.

End Store.

(** ** The weather handler *)

Section Handler.

Implicit Types (W : World) (db : Database) (cityName : string) (tr : list Event).

Lemma parseRows_pair lr wr :
  parseRows (Some (<["location" := LocationValue lr]> (<["weather" := WeatherValue wr]> ∅)))
  = (Some lr, Some wr).
Proof. reflexivity. Qed.

(** X27: a lookup that yields a location and a reading younger than the TTL:
    the provider is not called, the counter is incremented, and unless that
    fails the reading of the lookup is the response. *)
Lemma after_lookup_fresh W cityName lr wr db tr :
  PrimFloat.ltb (Minutes (Sub (Now W) (AtTime wr))) cacheTTLMinutes = true →
  let out := after_lookup W cityName
               (Some (<["location" := LocationValue lr]> (<["weather" := WeatherValue wr]> ∅)))
               db tr in
  trace out = tr ++ [EvIncrQueryCount (CityName lr)] ∧
  store out = (IncrQueryCount (IncrFault W) lr db).1.2 ∧
  ((IncrQueryCount (IncrFault W) lr db).2 = None →
   response out = respond cityName (Some wr)).
Proof.
  intros H. unfold after_lookup. rewrite parseRows_pair, H.
  destruct (IncrQueryCount (IncrFault W) lr db) as [[lr' db'] [e|]]; simpl; done.
Qed.

(** A lookup that yields a reading as old as the TTL or older, or nothing:
    the handler goes on to the refresh. *)
Lemma after_lookup_stale W cityName lr wr db tr :
  PrimFloat.ltb (Minutes (Sub (Now W) (AtTime wr))) cacheTTLMinutes = false →
  after_lookup W cityName
    (Some (<["location" := LocationValue lr]> (<["weather" := WeatherValue wr]> ∅))) db tr
  = refresh_and_respond W cityName db tr.
Proof. intros H. unfold after_lookup. by rewrite parseRows_pair, H. Qed.

Lemma after_lookup_nil W cityName db tr :
  after_lookup W cityName None db tr = refresh_and_respond W cityName db tr.
Proof. reflexivity. Qed.

(** The test of the handler at the TTL: 59.999999999 s is fresh, 60 s is not. *)
Example Minutes_below_TTL :
  PrimFloat.ltb (Minutes 59999999999) cacheTTLMinutes = true.
Proof. vm_compute. reflexivity. Qed.

Example Minutes_at_TTL :
  PrimFloat.ltb (Minutes 60000000000) cacheTTLMinutes = false.
Proof. vm_compute. reflexivity. Qed.

(** The refresh calls the provider first, and the write-back, if at all,
    after it. *)
Lemma refresh_and_respond_trace W cityName db tr :
  ∃ rest, trace (refresh_and_respond W cityName db tr) = tr ++ EvGateway cityName :: rest ∧
          ∀ ev, ev ∈ rest → ∃ e, ev = EvUpdateCachedLocationWeather cityName e.
Proof.
  unfold refresh_and_respond.
  destruct (FetchCurrentWeatherByLocationName W cityName) as [[location|] [err|]];
    try (exists []; split; [done|]; by intros ev ?%elem_of_nil).
  case_decide.
  { destruct (Message location);
      (exists []; split; [done|]; by intros ev ?%elem_of_nil). }
  destruct (Main location) as [main|];
    [|exists []; split; [done|]; by intros ev ?%elem_of_nil].
  match goal with
  | |- context [UpdateCachedLocationWeather ?F ?n ?d ?c ?a ?b ?l] =>
      set (u := UpdateCachedLocationWeather F n d c a b l)
  end.
  exists [EvUpdateCachedLocationWeather cityName (upd_end u)].
  split.
  - destruct (upd_err u); [by rewrite <- app_assoc|].
    destruct (parseRows (upd_result u)). by rewrite <- app_assoc.
  - intros ev ->%list_elem_of_singleton. eauto.
Qed.

(** A refresh in which the provider answers with a status other than 200
    sends the provider's message, or the generic one, and touches nothing. *)
Lemma refresh_and_respond_non_success W cityName db tr location :
  FetchCurrentWeatherByLocationName W cityName = (Some location, None) →
  Cod location ≠ 200 →
  refresh_and_respond W cityName db tr
  = {| response := SendMessage (default unknown_reason (Message location));
       store := db;
       trace := tr ++ [EvGateway cityName] |}.
Proof.
  intros H Hc. unfold refresh_and_respond. rewrite H, decide_True by done.
  by destruct (Message location).
Qed.

Lemma after_lookup_non_success W cityName cityName' query db tr location :
  EvGateway cityName ∈ trace (after_lookup W cityName' query db tr) →
  EvGateway cityName ∉ tr →
  FetchCurrentWeatherByLocationName W cityName = (Some location, None) →
  Cod location ≠ 200 →
  after_lookup W cityName' query db tr
  = {| response := SendMessage (default unknown_reason (Message location));
       store := db;
       trace := tr ++ [EvGateway cityName] |}.
Proof.
  intros Hin Htr Hg Hc.
  assert (Hr : EvGateway cityName ∈ trace (refresh_and_respond W cityName' db tr) →
               refresh_and_respond W cityName' db tr
               = {| response := SendMessage (default unknown_reason (Message location));
                    store := db;
                    trace := tr ++ [EvGateway cityName] |}).
  { intros Hin'.
    destruct (refresh_and_respond_trace W cityName' db tr) as (rest & E & Hrest).
    rewrite E in Hin'. apply elem_of_app in Hin' as [?|Hin']; [done|].
    apply elem_of_cons in Hin' as [[= ->]|Hin'].
    - by apply refresh_and_respond_non_success.
    - by destruct (Hrest _ Hin') as [e ?]. }
  unfold after_lookup in *.
  destruct (parseRows query) as [[lr|] [wr|]]; try by apply Hr.
  destruct (PrimFloat.ltb (Minutes (Sub (Now W) (AtTime wr))) cacheTTLMinutes);
    [|by apply Hr].
  exfalso.
  destruct (IncrQueryCount (IncrFault W) lr db) as [[lr' db'] [e|]]; simpl in Hin;
    apply elem_of_app in Hin as [?|Hin]; try done;
    by apply list_elem_of_singleton in Hin.
Qed.

(** C7: in every run of the handler that reaches the provider and gets an
    answer whose status is not 200, the store is left as it was, the
    write-back is not called, and the response is the provider's message when
    there is one and the unknown-reason text otherwise. *)
Theorem refresh_non_success_writes_nothing W (r : Request) db cityName location :
  EvGateway cityName ∈ trace (ReportLocationWeather W r db) →
  FetchCurrentWeatherByLocationName W cityName = (Some location, None) →
  Cod location ≠ 200 →
  let out := ReportLocationWeather W r db in
  store out = db ∧
  response out
  = SendMessage (default unknown_reason (Message location)) ∧
  trace out = [EvFetchLocationWeather cityName; EvGateway cityName].
Proof.
  intros Hin Hg Hc. unfold ReportLocationWeather in *.
  case_decide; [by apply elem_of_nil in Hin|].
  destruct (ParseQuery r) as [err|params]; [by apply elem_of_nil in Hin|].
  destruct (FetchLocationWeather (FetchFault W) db (Title W (Get params "city")))
    as [query [err|]].
  { simpl in Hin. by apply list_elem_of_singleton in Hin. }
  assert (Htr : EvGateway cityName ∉ [EvFetchLocationWeather (Title W (Get params "city"))]).
  { by intros ?%list_elem_of_singleton. }
  pose proof Hin as Hin'.
  rewrite (after_lookup_non_success _ _ _ _ _ _ _ Hin Htr Hg Hc) in Hin' |- *.
  simpl in *. split; [done|]. split; [done|].
  destruct (refresh_and_respond_trace W (Title W (Get params "city")) db
              [EvFetchLocationWeather (Title W (Get params "city"))]) as (rest & E & _).
  clear Hin'.
  assert (Title W (Get params "city") = cityName) as ->; [|done].
  pose proof (after_lookup_non_success _ _ _ _ _ _ _ Hin Htr Hg Hc) as Heq.
  unfold after_lookup in Heq.
  destruct (parseRows query) as [[lr|] [wr|]];
    try (rewrite Heq in E; simpl in E; by simplify_list_eq).
  destruct (PrimFloat.ltb (Minutes (Sub (Now W) (AtTime wr))) cacheTTLMinutes);
    [|rewrite Heq in E; simpl in E; by simplify_list_eq].
  destruct (IncrQueryCount (IncrFault W) lr db) as [[lr' db'] [e|]];
    simpl in Heq; injection Heq as _ _ Heq; by simplify_list_eq.
Qed.

(** A run of the handler in which the provider does not know the city. *)
Lemma refresh_non_success_writes_nothing_witness :
  let W := Scenario.world 90 Scenario.city_not_found in
  let out := ReportLocationWeather W (Scenario.get_weather Scenario.Reno) Scenario.reno_only in
  store out = Scenario.reno_only ∧
  response out = SendMessage "city not found" ∧
  trace out = [EvFetchLocationWeather Scenario.Reno; EvGateway Scenario.Reno].
Proof.
  apply (refresh_non_success_writes_nothing
           (Scenario.world 90 Scenario.city_not_found)
           (Scenario.get_weather Scenario.Reno) Scenario.reno_only
           Scenario.Reno Scenario.city_not_found).
  - vm_compute. apply list_elem_of_further, list_elem_of_here.
  - reflexivity.
  - vm_compute. discriminate.
Defined.

(** The handler never answers from the store: [FetchLocationWeather] hands
    it no rows, so it reports the error of the lookup or goes on to the
    refresh. *)
Lemma ReportLocationWeather_always_refreshes W (r : Request) db params :
  Method r = MethodGet →
  ParseQuery r = inr params →
  let cityName := Title W (Get params "city") in
  ∃ err,
    FetchLocationWeather (FetchFault W) db cityName = (None, err) ∧
    ReportLocationWeather W r db
    = match err with
      | Some e => {| response := InternalServerError e; store := db;
                     trace := [EvFetchLocationWeather cityName] |}
      | None => refresh_and_respond W cityName db [EvFetchLocationWeather cityName]
      end.
Proof.
  intros Hm Hp cityName. unfold ReportLocationWeather.
  rewrite Hm, Hp, decide_False by (by intros ?).
  destruct (FetchLocationWeather_returns_no_rows (FetchFault W) db cityName)
    as (err & E & _).
  exists err. split; [done|]. fold cityName. rewrite E. by destruct err.
Qed.

(** C6 (the code at a fresh reading): Reno was read at second 0 and is asked
    for again at second 30.  The query of the lookup selects Reno's reading,
    which is 30 s old and passes the handler's test of freshness; the handler
    all the same calls the provider and writes back, and its response is the
    new reading of second 30. *)
Theorem ReportLocationWeather_refetches_fresh_reading :
  let W := Scenario.world 30 Scenario.clear_sky in
  let out := ReportLocationWeather W (Scenario.get_weather Scenario.Reno) Scenario.reno_only in
  FetchLocationWeather_query Scenario.reno_only Scenario.Reno
  = [(Scenario.reno_row, Scenario.reno_reading)] ∧
  Sub (Now W) (AtTime Scenario.reno_reading) = 30 * 1000000000 ∧
  PrimFloat.ltb (Minutes (Sub (Now W) (AtTime Scenario.reno_reading))) cacheTTLMinutes = true ∧
  trace out = [EvFetchLocationWeather Scenario.Reno; EvGateway Scenario.Reno;
               EvUpdateCachedLocationWeather Scenario.Reno (Some Commit)] ∧
  response out = respond Scenario.Reno (Some (Scenario.reading 1 30 274 278)) ∧
  (QueryCount <$> locations (store out)) = [int64_of 2] ∧
  Db.weather (store out) = [Scenario.reno_reading; Scenario.reading 1 30 274 278].
Proof. intros W out. repeat split; vm_compute; reflexivity. Qed.

(** When [Begin] fails in the write-back of a refresh the handler receives
    neither rows nor an error, and dereferences the nil reading. *)
Lemma refresh_and_respond_begin_fails W cityName db tr location main txnError :
  FetchCurrentWeatherByLocationName W cityName = (Some location, None) →
  Cod location = 200 →
  Main location = Some main →
  FailBegin (TxnFault W) = Some txnError →
  refresh_and_respond W cityName db tr
  = {| response := Panic; store := db;
       trace := tr ++ [EvGateway cityName; EvUpdateCachedLocationWeather cityName None] |}.
Proof.
  intros Hg Hc Hm Hb. unfold refresh_and_respond.
  rewrite Hg, decide_False, Hm by (by intros ?).
  unfold UpdateCachedLocationWeather. rewrite Hb. simpl. by rewrite <- app_assoc.
Qed.

End Handler.

(** ** The statistics queries *)

Section Statistics.

Import Stats.

(** *** [KnownWeatherLabels] *)

(** The labels of a list in the order of their first occurrence. *)
Lemma range_labels_app l1 l2 st :
  range_labels (l1 ++ l2) st = range_labels l2 (range_labels l1 st).
Proof. unfold range_labels. apply foldl_app. Qed.

Lemma range_labels_first_occurrences all :
  let '(labels, uniqueLabels) := range_labels all ([], ∅) in
  labels = reverse (remove_dups (reverse all)) ∧
  ∀ l, is_Some (uniqueLabels !! l) ↔ l ∈ all.
Proof.
  induction all as [|l all IH] using rev_ind.
  { simpl. split; [done|]. intros l. rewrite lookup_empty, elem_of_nil.
    split; [by intros [? ?]|done]. }
  rewrite range_labels_app.
  destruct (range_labels all ([], ∅)) as [labels uniqueLabels].
  destruct IH as [-> Hu]. simpl.
  rewrite reverse_snoc. cbn [remove_dups].
  destruct (decide_rel (∈) l (reverse all)) as [Hin|Hin]; rewrite elem_of_reverse in Hin.
  - destruct (proj2 (Hu l) Hin) as [b E]. rewrite E. split; [done|].
    intros l'. rewrite Hu, elem_of_app, list_elem_of_singleton.
    split; [by left|]. by intros [?| ->].
  - destruct (uniqueLabels !! l) as [b|] eqn:E.
    { exfalso. apply Hin, Hu. eauto. }
    rewrite reverse_cons. split; [done|].
    intros l'. rewrite lookup_insert, elem_of_app, list_elem_of_singleton, <- Hu.
    case_decide; [subst; split; eauto|]. split; [by left|]. by intros [?|?].
Qed.

Lemma KnownWeatherLabels_rows_ok lss st :
  KnownWeatherLabels_rows (inr <$> lss) st = (Some (range_labels (concat lss) st).1, None).
Proof.
  revert st. induction lss as [|ls lss IH]; intros st; [done|].
  simpl. by rewrite IH, range_labels_app.
Qed.

Lemma KnownWeatherLabels_rows_err lss err rest st :
  KnownWeatherLabels_rows ((inr <$> lss) ++ inl err :: rest) st = (None, Some err).
Proof. revert st. induction lss as [|ls lss IH]; intros st; [done|]. apply IH. Qed.

(** X1: [KnownWeatherLabels] returns every label of the rows once, in the
    order of first appearance; when a [Scan] fails it returns that error and
    no labels. *)
Theorem KnownWeatherLabels_first_occurrences lss :
  ∃ labels,
    KnownWeatherLabels (FetchRows (inr <$> lss)) = (Some labels, None) ∧
    labels = reverse (remove_dups (reverse (concat lss))) ∧
    NoDup labels ∧
    (∀ l, l ∈ labels ↔ ∃ ls, ls ∈ lss ∧ l ∈ ls) ∧
    ∀ err rest,
      KnownWeatherLabels (FetchRows ((inr <$> lss) ++ inl err :: rest)) = (None, Some err).
Proof.
  pose proof (range_labels_first_occurrences (concat lss)) as H.
  destruct (range_labels (concat lss) ([], ∅)) as [labels uniqueLabels] eqn:E.
  destruct H as [Hl _]. exists labels. split; [|split; [done|split; [|split]]].
  - simpl. by rewrite KnownWeatherLabels_rows_ok, E.
  - subst labels. rewrite reverse_Permutation. apply NoDup_remove_dups.
  - intros l. subst labels.
    rewrite elem_of_reverse, elem_of_remove_dups, elem_of_reverse, list_elem_of_In, in_concat.
    split; intros (ls & H1 & H2); exists ls; by rewrite ?list_elem_of_In in *.
  - intros err rest. apply KnownWeatherLabels_rows_err.
Qed.

(** *** [DailyWeatherSummary] *)

Lemma extend_app o a b : extend (extend o a) b = extend o (a ++ b).
Proof.
  destruct a as [|x a]; [done|]. destruct b as [|y b]; simpl.
  - by rewrite app_nil_r.
  - by rewrite <- app_assoc.
Qed.

Lemma note_label_lookup city at_time (summary : QueryResultList) l' l :
  note_label city at_time summary l' !! l =
  if decide (l' = l)
  then Some (default [] (summary !! l)
             ++ [ {| SightingCityName := city; SightingDate := at_time |} ])
  else summary !! l.
Proof.
  unfold note_label. case_decide as Hl.
  - subst l'. rewrite lookup_insert_eq. destruct (summary !! l) eqn:E; simpl.
    + by rewrite E.
    + by rewrite lookup_insert_eq.
  - rewrite lookup_insert_ne by done.
    destruct (summary !! l'); [done|]. by rewrite lookup_insert_ne.
Qed.

Lemma range_summary_lookup city at_time labels (summary : QueryResultList) l :
  foldl (note_label city at_time) summary labels !! l =
  extend (summary !! l)
         ((λ _, {| SightingCityName := city; SightingDate := at_time |})
            <$> filter (λ l', l' = l) labels).
Proof.
  revert summary. induction labels as [|l' labels IH]; intros summary; [done|].
  simpl. rewrite IH, note_label_lookup, filter_cons.
  case_decide as Hl; [|done].
  rewrite fmap_cons.
  change (Some (default [] (summary !! l)
          ++ [{| SightingCityName := city; SightingDate := at_time |}]))
    with (extend (summary !! l)
            [{| SightingCityName := city; SightingDate := at_time |}]).
  by rewrite extend_app.
Qed.

Lemma sightings_of_cons l r rows :
  sightings_of l (r :: rows) =
  (if StringValid (c r)
   then (λ _, {| SightingCityName := String (c r); SightingDate := st r |})
          <$> filter (λ l', l' = l) (ls r)
   else []) ++ sightings_of l rows.
Proof. reflexivity. Qed.

Lemma DailyWeatherSummary_rows_ok rows (summary : QueryResultList) :
  ∃ summary',
    DailyWeatherSummary_rows (inr <$> rows) summary = (Some summary', None) ∧
    ∀ l, summary' !! l = extend (summary !! l) (sightings_of l rows).
Proof.
  revert summary. induction rows as [|r rows IH]; intros summary.
  { exists summary. split; [done|]. by intros l. }
  rewrite fmap_cons. cbn [DailyWeatherSummary_rows].
  destruct (StringValid (c r)) eqn:Hc; cbn [negb].
  - destruct (IH (foldl (note_label (String (c r)) (st r)) summary (ls r)))
      as (summary' & E & L).
    exists summary'. split; [exact E|]. intros l.
    by rewrite L, range_summary_lookup, extend_app, sightings_of_cons, Hc.
  - destruct (IH summary) as (summary' & E & L).
    exists summary'. split; [exact E|]. intros l.
    by rewrite L, sightings_of_cons, Hc.
Qed.

Lemma DailyWeatherSummary_rows_err rows err rest (summary : QueryResultList) :
  DailyWeatherSummary_rows ((inr <$> rows) ++ inl err :: rest) summary = (None, Some err).
Proof.
  revert summary. induction rows as [|r rows IH]; intros summary; [done|].
  simpl. destruct (negb (StringValid (c r))); apply IH.
Qed.

(** X2: [DailyWeatherSummary] maps a label to the sightings of that label,
    one for each occurrence of the label in a row with a city name, in the
    order of the cursor; a label that occurs in no such row is no key of the
    summary, so no list of the summary is empty.  When a [Scan] fails it
    returns that error and no summary. *)
Theorem DailyWeatherSummary_groups_by_label rows :
  ∃ summary,
    DailyWeatherSummary (FetchRows (inr <$> rows)) = (Some summary, None) ∧
    (∀ l, summary !! l =
          if decide (sightings_of l rows = []) then None
          else Some (sightings_of l rows)) ∧
    (∀ l sightings, summary !! l = Some sightings → sightings ≠ []) ∧
    ∀ err rest,
      DailyWeatherSummary (FetchRows ((inr <$> rows) ++ inl err :: rest)) = (None, Some err).
Proof.
  destruct (DailyWeatherSummary_rows_ok rows ∅) as (summary & E & L).
  assert (L' : ∀ l, summary !! l =
                    if decide (sightings_of l rows = []) then None
                    else Some (sightings_of l rows)).
  { intros l. rewrite L, lookup_empty.
    case_decide as H; [by rewrite H|]. by destruct (sightings_of l rows). }
  exists summary. split; [done|]. split; [done|]. split.
  - intros l sightings. rewrite L'. case_decide; [done|]. by intros [= <-].
  - intros err rest. apply DailyWeatherSummary_rows_err.
Qed.

End Statistics.

(** ** The store under the write-back and the counter update *)

Section StoreInvariants.

Import Stats Store.

Implicit Types (ls : list LocationRow) (db : Database) (cityName : string).

Lemma names_cons l ls :
  names (l :: ls) =
  (if StringValid (CityName l) then [String (CityName l)] else []) ++ names ls.
Proof. unfold names. simpl. by destruct (StringValid (CityName l)). Qed.

Lemma city_name_is_spec cityName l :
  city_name_is cityName l = true ↔
  StringValid (CityName l) = true ∧ String (CityName l) = cityName.
Proof.
  unfold city_name_is. rewrite andb_true_iff, bool_decide_eq_true. done.
Qed.

Lemma elem_of_names cityName ls :
  cityName ∈ names ls ↔ ∃ l, l ∈ ls ∧ city_name_is cityName l = true.
Proof.
  unfold names. rewrite list_elem_of_omap. split.
  - intros (l & Hl & H). exists l. split; [done|]. apply city_name_is_spec.
    destruct (StringValid (CityName l)); [|done]. by injection H as <-.
  - intros (l & Hl & [Hv <-]%city_name_is_spec). exists l. split; [done|].
    by rewrite Hv.
Qed.

(** The upsert on a table that holds the city: the row of the city has its
    count raised, in place; nothing else changes. *)
Lemma upsert_location_conflict ls fresh cityName count :
  cityName ∈ names ls →
  ∃ l1 l l2,
    ls = l1 ++ l :: l2 ∧
    (cityName ∉ names l1) ∧
    city_name_is cityName l = true ∧
    let l' := {| ID := ID l; QueryCount := succ_count (QueryCount l);
                 CityName := CityName l |} in
    upsert_location ls fresh cityName count = (l1 ++ l' :: l2, l').
Proof.
  induction ls as [|l ls IH]; [by intros ?%elem_of_nil|].
  intros Hin. simpl. destruct (city_name_is cityName l) eqn:Hc.
  - exists [], l, ls. split; [done|]. split; [by intros ?%elem_of_nil|]. done.
  - assert (Hin' : cityName ∈ names ls).
    { apply elem_of_names in Hin as (l0 & [->|Hl0]%elem_of_cons & H0); [congruence|].
      apply elem_of_names. eauto. }
    destruct (IH Hin') as (l1 & l0 & l2 & -> & Hn & Hc0 & E).
    exists (l :: l1), l0, l2. split; [done|]. split.
    + rewrite elem_of_names. intros (x & [->|Hx]%elem_of_cons & Hcx); [congruence|].
      apply Hn, elem_of_names. eauto.
    + split; [done|]. simpl in *. by rewrite E.
Qed.

(** The upsert on a table that does not hold the city appends its row. *)
Lemma upsert_location_insert ls fresh cityName count :
  cityName ∉ names ls →
  let l := {| ID := int64_of fresh; QueryCount := int64_of count;
              CityName := string_of cityName |} in
  upsert_location ls fresh cityName count = (ls ++ [l], l).
Proof.
  induction ls as [|l ls IH]; [done|].
  intros Hn. simpl. destruct (city_name_is cityName l) eqn:Hc.
  - exfalso. apply Hn, elem_of_names. exists l. split; [by left|done].
  - simpl in IH. rewrite IH; [done|].
    intros Hin. apply Hn. apply elem_of_names in Hin as (x & Hx & Hcx).
    apply elem_of_names. exists x. split; [by right|done].
Qed.

Lemma names_app l1 l2 : names (l1 ++ l2) = names l1 ++ names l2.
Proof. unfold names. apply omap_app. Qed.

(** Either way the city is in the table afterwards, once, the names that
    were there stay, and every id that was there stays. *)
Lemma upsert_location_names ls fresh cityName count :
  names (upsert_location ls fresh cityName count).1 =
  if decide (cityName ∈ names ls) then names ls else names ls ++ [cityName].
Proof.
  case_decide as Hin.
  - destruct (upsert_location_conflict ls fresh cityName count Hin)
      as (l1 & l & l2 & -> & _ & _ & E).
    simpl in E. rewrite E. simpl. by rewrite !names_app, !names_cons.
  - rewrite (upsert_location_insert ls fresh cityName count Hin). simpl.
    by rewrite names_app.
Qed.

Lemma upsert_location_ids ls fresh cityName count l :
  l ∈ ls → ∃ l', l' ∈ (upsert_location ls fresh cityName count).1 ∧ ID l' = ID l.
Proof.
  intros Hl. destruct (decide (cityName ∈ names ls)) as [Hin|Hin].
  - destruct (upsert_location_conflict ls fresh cityName count Hin)
      as (l1 & l0 & l2 & -> & _ & _ & E).
    simpl in E. rewrite E. simpl.
    apply elem_of_app in Hl as [Hl|[->|Hl]%elem_of_cons].
    + exists l. split; [|done]. apply elem_of_app. by left.
    + eexists. split; [apply elem_of_app; right; left|done].
    + exists l. split; [|done]. apply elem_of_app. right. by right.
  - rewrite (upsert_location_insert ls fresh cityName count Hin). simpl.
    exists l. split; [|done]. apply elem_of_app. by left.
Qed.

Lemma upsert_location_returned ls fresh cityName count :
  let '(ls', lr) := upsert_location ls fresh cityName count in
  lr ∈ ls' ∧ city_name_is cityName lr = true.
Proof.
  destruct (decide (cityName ∈ names ls)) as [Hin|Hin].
  - destruct (upsert_location_conflict ls fresh cityName count Hin)
      as (l1 & l0 & l2 & -> & _ & Hc & E).
    simpl in E. rewrite E. split; [apply elem_of_app; right; left|done].
  - rewrite (upsert_location_insert ls fresh cityName count Hin).
    split; [apply elem_of_app; right; left|].
    apply city_name_is_spec. done.
Qed.





(** The store a write-back leaves is the store it found, or that store with
    the upsert applied, or with the upsert and the reading. *)
Lemma UpdateCachedLocationWeather_stores F now db cityName tempMin tempMax labels :
  let u := UpdateCachedLocationWeather F now db cityName tempMin tempMax labels in
  let '(ls, lr) := upsert_location (locations db) (next_id (locations db)) cityName 1 in
  let wr := {| LocationRowID := ID lr; TempHigh := float64_of tempMax;
               TempLow := float64_of tempMin; Labels := labels; AtTime := now |} in
  upd_db u = db ∨
  upd_db u = {| locations := ls; Db.weather := Db.weather db |} ∨
  upd_db u = {| locations := ls; Db.weather := Db.weather db ++ [wr] |}.
Proof.
  unfold UpdateCachedLocationWeather, deferred.
  destruct (upsert_location (locations db) (next_id (locations db)) cityName 1) as [ls lr].
  destruct (FailBegin F); [by left|].
  destruct (FailPrepareLocation F), (FailLocationUpsert F), (FailPrepareWeather F),
    (FailWeatherInsert F), (FailCommit F);
    repeat case_decide; simpl; auto; congruence.
Qed.

(** X5: for every plan of failures the write-back keeps the city names of
    the location rows distinct and every reading attached to a location row. *)
Theorem UpdateCachedLocationWeather_well_formed F now db cityName tempMin tempMax labels :
  well_formed db →
  well_formed (upd_db (UpdateCachedLocationWeather F now db cityName tempMin tempMax labels)).
Proof.
  intros [Hnames Hw].
  pose proof (UpdateCachedLocationWeather_stores F now db cityName tempMin tempMax labels) as H.
  pose proof (upsert_location_names (locations db) (next_id (locations db)) cityName 1) as Hn.
  pose proof (upsert_location_ids (locations db) (next_id (locations db)) cityName 1) as Hi.
  pose proof (upsert_location_returned (locations db) (next_id (locations db)) cityName 1) as Hr.
  destruct (upsert_location (locations db) (next_id (locations db)) cityName 1) as [ls lr].
  simpl in *.
  assert (Hls : NoDup (names ls)).
  { rewrite Hn. case_decide as Hin; [done|].
    apply NoDup_app. split; [done|]. split; [|apply NoDup_singleton].
    intros x Hx ->%list_elem_of_singleton. done. }
  assert (Hold : ∀ w, w ∈ Db.weather db → ∃ l, l ∈ ls ∧ ID l = LocationRowID w).
  { intros w Hin. destruct (Hw w Hin) as (l & Hl & <-). by apply Hi. }
  destruct H as [->|[->| ->]]; [done| |]; split; simpl; try done.
  intros w [Hin| ->%list_elem_of_singleton]%elem_of_app; [by apply Hold|].
  exists lr. by destruct Hr.
Qed.

Lemma UpdateCachedLocationWeather_well_formed_witness :
  well_formed Scenario.two_cities ∧
  well_formed (upd_db (UpdateCachedLocationWeather Scenario.weather_insert_fails
                         (Scenario.at_second 90) Scenario.two_cities "Lima" 290 295 ["Mist"])).
Proof.
  assert (H : well_formed Scenario.two_cities).
  { split.
    - vm_compute. apply NoDup_cons. split; [|apply NoDup_singleton].
      intros H0. apply list_elem_of_singleton in H0. discriminate H0.
    - intros w Hin. unfold Scenario.two_cities in *. simpl in *.
      apply elem_of_cons in Hin as [->|Hin].
      + exists Scenario.reno_row. split; [left|reflexivity].
      + apply list_elem_of_singleton in Hin as ->.
        exists Scenario.oslo_row. split; [right; left|reflexivity]. }
  split; [exact H|].
  exact (UpdateCachedLocationWeather_well_formed Scenario.weather_insert_fails
           (Scenario.at_second 90) Scenario.two_cities "Lima" 290 295 ["Mist"] H).
Defined.

(** [TotalQueryCount] adds up the counts of the rows with a city name; a
    null count adds nothing, and the null sum of an empty table reads 0. *)
Lemma TotalQueryCount_sum db :
  TotalQueryCount None db = (foldr (λ l n, count_of l + n) 0 (locations db), None).
Proof.
  unfold TotalQueryCount. f_equal.
  cut (let s := sum_query_count (locations db) in
       (if Int64Valid s then Int64 s else 0) = foldr (λ l n, count_of l + n) 0 (locations db)).
  { simpl. intros <-. by destruct (Int64Valid (sum_query_count (locations db))). }
  induction (locations db) as [|l ls IH]; [done|].
  simpl in *. rewrite <- IH. unfold count_of.
  by destruct (StringValid (CityName l) && Int64Valid (QueryCount l)).
Qed.

Lemma count_of_app l1 l2 :
  foldr (λ l n, count_of l + n) 0 (l1 ++ l2)
  = foldr (λ l n, count_of l + n) 0 l1 + foldr (λ l n, count_of l + n) 0 l2.
Proof. induction l1 as [|l l1 IH]; simpl; lia. Qed.

(** X6: a write-back without failures raises what [TotalQueryCount] reports
    by exactly one, whether the city is new or known, as long as the count of
    a known city's row is not null. *)
Theorem TotalQueryCount_after_write_back now db cityName tempMin tempMax labels :
  (∀ l, l ∈ locations db → city_name_is cityName l = true →
        Int64Valid (QueryCount l) = true) →
  let u := UpdateCachedLocationWeather Scenario.no_txn_faults now db cityName
             tempMin tempMax labels in
  TotalQueryCount None (upd_db u) = ((TotalQueryCount None db).1 + 1, None).
Proof.
  intros Hv u. rewrite !TotalQueryCount_sum. simpl. f_equal.
  pose proof (UpdateCachedLocationWeather_commit now db cityName tempMin tempMax labels) as Hu.
  simpl in Hu. fold u in Hu.
  destruct (decide (cityName ∈ names (locations db))) as [Hin|Hin].
  - destruct (upsert_location_conflict (locations db) (next_id (locations db)) cityName 1 Hin)
      as (l1 & l & l2 & E0 & _ & Hc & E).
    simpl in E. rewrite E in Hu. destruct Hu as (_ & _ & ->). simpl.
    rewrite E0, !count_of_app. simpl.
    assert (Hl : Int64Valid (QueryCount l) = true).
    { apply Hv; [|done]. rewrite E0. apply elem_of_app. right. left. }
    apply city_name_is_spec in Hc as [Hs _].
    unfold count_of, succ_count. simpl. rewrite Hs, Hl. simpl. lia.
  - rewrite (upsert_location_insert (locations db) (next_id (locations db)) cityName 1 Hin)
      in Hu.
    destruct Hu as (_ & _ & ->). simpl. rewrite count_of_app. simpl.
    unfold count_of. simpl. lia.
Qed.

Lemma TotalQueryCount_after_write_back_witness :
  TotalQueryCount None Scenario.two_cities = (2, None) ∧
  TotalQueryCount None
    (upd_db (UpdateCachedLocationWeather Scenario.no_txn_faults (Scenario.at_second 90)
               Scenario.two_cities Scenario.Reno 274 278 ["Clear"])) = (3, None).
Proof.
  split; [reflexivity|].
  apply (TotalQueryCount_after_write_back (Scenario.at_second 90) Scenario.two_cities
           Scenario.Reno 274 278 ["Clear"]).
  intros l Hl _. unfold Scenario.two_cities in Hl. simpl in Hl.
  apply elem_of_cons in Hl as [->|Hl]; [reflexivity|].
  apply list_elem_of_singleton in Hl as ->. reflexivity.
Defined.

(** X7: when only [txn.Commit] fails, the caller still receives both rows
    and a nil error, while the store holds neither the upsert nor the
    reading: the error of [Commit] is assigned to a variable that is no
    result of the function. *)
Theorem UpdateCachedLocationWeather_commit_failure_unreported
    err now db cityName tempMin tempMax labels :
  let u := UpdateCachedLocationWeather (commit_fails err) now db cityName
             tempMin tempMax labels in
  let ok := UpdateCachedLocationWeather Scenario.no_txn_faults now db cityName
              tempMin tempMax labels in
  upd_err u = None ∧
  upd_result u = upd_result ok ∧ is_Some (upd_result u) ∧
  upd_end u = Some Commit ∧
  upd_db u = db.
Proof.
  unfold UpdateCachedLocationWeather. simpl.
  destruct (upsert_location (locations db) (next_id (locations db)) cityName 1) as [ls lr].
  simpl. eauto 10.
Qed.

(** A failure of the first [Prepare], of the upsert or of the second
    [Prepare], on Reno's store. *)
Lemma UpdateCachedLocationWeather_rollback_witness :
  UpdateCachedLocationWeather
    {| FailBegin := None; FailPrepareLocation := None;
       FailLocationUpsert := Some (ErrOther "pq: deadlock detected");
       FailPrepareWeather := None; FailWeatherInsert := None; FailCommit := None |}
    (Scenario.at_second 90) Scenario.reno_only Scenario.Reno 274 278 ["Clear"]
  = {| upd_result := None; upd_err := Some (ErrOther "pq: deadlock detected");
       upd_db := Scenario.reno_only; upd_end := Some Rollback |}.
Proof.
  apply UpdateCachedLocationWeather_rollback; [reflexivity|].
  right. left. split; reflexivity.
Defined.

(** *** [IncrQueryCount] *)




End StoreInvariants.

(** ** The buckets of the reports *)

Section BucketFacts.

Import Buckets.

Implicit Types (rows : list JoinedRow) (temps : LocationTemperatureQueryResult).

Lemma MonthlyTemperature_rows_bucket param rows temps :
  MonthlyTemperature_rows param (ScanOk <$> rows) temps
  = temps' ← bucket_rows (selected_sample param) rows temps; Some (Some temps', None).
Proof.
  revert temps. induction rows as [|r rows IH]; intros temps; [done|].
  rewrite fmap_cons. cbn [MonthlyTemperature_rows bucket_rows Date].
  destruct (negb (StringValid (cname r))); [apply IH|].
  destruct (InitialiseForDate temps (String (cname r)) (Year (t r)) (Month (t r)) (Day (t r)))
    as [q1|]; [|done].
  cbn [mbind option_bind]. unfold selected_sample.
  destruct (Float64Valid (column param r)); cbn [negb]; [|apply IH].
  destruct (Add q1 (Float64 (column param r)) (String (cname r))
              (Year (t r)) (Month (t r)) (Day (t r))) as [q2|]; [|done].
  apply IH.
Qed.




(** The shared loop returns, and each leaf of what it returns holds what the
    leaf held before followed by the samples of the rows of its path, in the
    order of the rows; a path without rows is left as it was. *)
Lemma bucket_rows_leaf sample rows temps :
  ∃ q, bucket_rows sample rows temps = Some q ∧
       ∀ c y m d,
         leaf q c y m d =
         match filter (at_path c y m d) rows with
         | [] => leaf temps c y m d
         | rs => Some (default [] (leaf temps c y m d) ++ omap sample rs)
         end.
Proof.
  revert temps. induction rows as [|r rows IH]; intros temps.
  { exists temps. split; [done|]. intros. by rewrite filter_nil. }
  cbn [bucket_rows].
  destruct (StringValid (cname r)) eqn:Hc; cbn [negb].
  2:{ destruct (IH temps) as (q & E & L). exists q. split; [exact E|].
      intros c y m d. rewrite L, filter_cons, decide_False; [done|].
      intros [H _]. congruence. }
  set (c0 := String (cname r)). set (y0 := Year (t r)).
  set (m0 := Month (t r)). set (d0 := Day (t r)).
  destruct (InitialiseForDate_spec temps c0 y0 m0 d0) as (q1 & E1 & H1 & L1).
  rewrite E1. cbn [mbind option_bind].
  assert (Hpath : ∀ c y m d, at_path c y m d r ↔ (c = c0 ∧ y = y0 ∧ m = m0 ∧ d = d0)).
  { intros. unfold at_path. subst c0 y0 m0 d0. split.
    - intros (_ & ? & ? & ? & ?). done.
    - intros (-> & -> & -> & ->). done. }
  destruct (sample r) as [v|] eqn:Hs.
  - destruct (Add_spec q1 v c0 y0 m0 d0 H1) as (q2 & E2 & _ & L2).
    rewrite E2. cbn [mbind option_bind].
    assert (Hq1 : at_day q1 c0 y0 m0 d0 = default [] (leaf temps c0 y0 m0 d0)).
    { rewrite (at_day_leaf q1), L1, decide_True by done. simpl. apply at_day_leaf. }
    destruct (IH q2) as (q & E & L). exists q. split; [exact E|].
    intros c y m d. rewrite L, L2, L1, Hq1, filter_cons, at_day_leaf.
    destruct (decide (c = c0 ∧ y = y0 ∧ m = m0 ∧ d = d0)) as [Hp|Hp].
    + rewrite decide_True by (by apply Hpath).
      destruct Hp as (-> & -> & -> & ->). simpl. rewrite Hs.
      destruct (filter (at_path c0 y0 m0 d0) rows); simpl.
      * done.
      * by rewrite <- app_assoc.
    + rewrite decide_False by (by rewrite Hpath). done.
  - destruct (IH q1) as (q & E & L). exists q. split; [exact E|].
    intros c y m d. rewrite L, L1, filter_cons, at_day_leaf.
    destruct (decide (c = c0 ∧ y = y0 ∧ m = m0 ∧ d = d0)) as [Hp|Hp].
    + rewrite decide_True by (by apply Hpath).
      destruct Hp as (-> & -> & -> & ->). simpl. rewrite Hs.
      destruct (filter (at_path c0 y0 m0 d0) rows); simpl.
      * by rewrite app_nil_r.
      * done.
    + rewrite decide_False by (by rewrite Hpath). done.
Qed.

(** X9: for a valid filter and rows that all scan, [MonthlyTemperature]
    returns a structure that has a leaf exactly for the paths of the rows with
    a city name, and the leaf of a path holds the non-null values of the
    selected column of its rows, one per row, in the order of the cursor:
    samples of one day are appended, not overwritten. *)
Theorem MonthlyTemperature_buckets f rows :
  f = FilterLows ∨ f = FilterHighs →
  ∃ q, MonthlyTemperature f (Rows (ScanOk <$> rows)) = Some (Some q, None) ∧
       ∀ c y m d,
         leaf q c y m d =
         bucket_of (λ r, if Float64Valid (selected f r)
                         then Some (Float64 (selected f r)) else None) c y m d rows.
Proof.
  intros [-> | ->].
  - change (MonthlyTemperature FilterLows (Rows (ScanOk <$> rows)))
      with (MonthlyTemperature_rows temp_low (ScanOk <$> rows) ∅).
    rewrite MonthlyTemperature_rows_bucket.
    destruct (bucket_rows_leaf (selected_sample temp_low) rows ∅) as (q & -> & L).
    exists q. split; [done|]. intros c y m d. rewrite L. unfold bucket_of.
    destruct (filter (at_path c y m d) rows) as [|r rs]; [done|].
    unfold leaf at 1. by rewrite lookup_empty.
  - change (MonthlyTemperature FilterHighs (Rows (ScanOk <$> rows)))
      with (MonthlyTemperature_rows temp_high (ScanOk <$> rows) ∅).
    rewrite MonthlyTemperature_rows_bucket.
    destruct (bucket_rows_leaf (selected_sample temp_high) rows ∅) as (q & -> & L).
    exists q. split; [done|]. intros c y m d. rewrite L. unfold bucket_of.
    destruct (filter (at_path c y m d) rows) as [|r rs]; [done|].
    unfold leaf at 1. by rewrite lookup_empty.
Qed.

Lemma MonthlyTemperature_buckets_witness :
  ∃ q, MonthlyTemperature FilterLows
         (Rows (ScanOk <$> [ {| cname := string_of "Reno"; id := int64_of 1;
                                t := Scenario.march 1; templo := float64_of 10;
                                temphi := float64_of 12; lid := int64_of 1 |};
                             {| cname := string_of "Reno"; id := int64_of 1;
                                t := Scenario.march 1; templo := null_float64;
                                temphi := float64_of 14; lid := int64_of 1 |};
                             {| cname := string_of "Reno"; id := int64_of 1;
                                t := Scenario.march 1; templo := float64_of 11;
                                temphi := float64_of 13; lid := int64_of 1 |} ]))
       = Some (Some q, None) ∧
       leaf q "Reno" 2019 3 1 = Some [10; 11]%float ∧
       leaf q "Reno" 2019 3 2 = None.
Proof.
  match goal with
  | |- ∃ q, MonthlyTemperature _ (Rows (ScanOk <$> ?rows)) = _ ∧ _ =>
      destruct (MonthlyTemperature_buckets FilterLows rows) as (q & E & L); [by left|]
  end.
  exists q. split; [exact E|]. rewrite !L. split; vm_compute; reflexivity.
Defined.



End BucketFacts.

(** ** More on the weather handler *)

Section HandlerFacts.

Implicit Types (W : World) (db : Database) (r : Request).

Lemma WeatherLabels_fmap (location : Location) :
  WeatherLabels location = Label <$> Weather location.
Proof.
  unfold WeatherLabels.
  cut (∀ ws acc, foldl (λ labels w, labels ++ [Label w]) acc ws = acc ++ (Label <$> ws)).
  { intros H. by rewrite H. }
  induction ws as [|w ws IH]; intros acc; simpl.
  - by rewrite app_nil_r.
  - by rewrite IH, <- app_assoc.
Qed.

(** X12: [WeatherLabels] returns the label of every weather entry of the
    answer, one per entry and in their order. *)
Theorem WeatherLabels_in_order (location : Location) :
  length (WeatherLabels location) = length (Weather location) ∧
  ∀ i, WeatherLabels location !! i = Label <$> Weather location !! i.
Proof.
  rewrite WeatherLabels_fmap. split; [apply length_fmap|].
  intros i. apply list_lookup_fmap.
Qed.

Lemma FetchLocationWeather_no_fault db cityName :
  FetchLocationWeather None db cityName = (None, None).
Proof.
  unfold FetchLocationWeather, scan_row.
  by destruct (FetchLocationWeather_query db cityName) as [|[lr wr] rows].
Qed.

Lemma FetchLocationWeather_fault e db cityName :
  FetchLocationWeather (Some e) db cityName
  = (None, if decide (e = ErrNoRows) then None else Some e).
Proof.
  unfold FetchLocationWeather, scan_row. simpl.
  destruct (decide (e = ErrNoRows)) as [->|Hne].
  - by rewrite decide_True.
  - rewrite decide_False by congruence. by rewrite decide_True.
Qed.



(** X14: when [Begin] fails in the write-back of such a request, the handler
    gets neither rows nor an error, dereferences the nil reading and panics;
    no 500 is sent for the storage failure, and the store is as it was. *)
Theorem ReportLocationWeather_begin_failure_panics W r db params location main txnError :
  Method r = MethodGet →
  ParseQuery r = inr params →
  FetchFault W = None →
  FailBegin (TxnFault W) = Some txnError →
  FetchCurrentWeatherByLocationName W (Title W (Get params "city")) = (Some location, None) →
  Cod location = 200 →
  Main location = Some main →
  let out := ReportLocationWeather W r db in
  response out = Panic ∧ store out = db.
Proof.
  intros Hm Hp Hf Hb Hg Hc Hmain out. subst out.
  unfold ReportLocationWeather.
  rewrite Hm, Hp, decide_False by (by intros ?).
  rewrite Hf, FetchLocationWeather_no_fault, after_lookup_nil.
  by rewrite (refresh_and_respond_begin_fails _ _ _ _ _ _ _ Hg Hc Hmain Hb).
Qed.

Lemma ReportLocationWeather_begin_failure_panics_witness :
  let W := {| Title := λ s, s; Now := Scenario.at_second 90;
              NowInsert := Scenario.at_second 90;
              FetchCurrentWeatherByLocationName := λ _, (Some Scenario.clear_sky, None);
              FetchFault := None; IncrFault := Scenario.no_incr_faults;
              TxnFault := Scenario.begin_fails |} in
  let out := ReportLocationWeather W (Scenario.get_weather Scenario.Reno) Scenario.reno_only in
  response out = Panic ∧ store out = Scenario.reno_only.
Proof.
  intros W.
  apply (ReportLocationWeather_begin_failure_panics W (Scenario.get_weather Scenario.Reno)
           Scenario.reno_only (<["city" := [Scenario.Reno]]> ∅) Scenario.clear_sky
           {| TempMin := 274; TempMax := 278 |} (ErrOther "pq: connection refused"));
    reflexivity.
Defined.

(** X15: a failure of the lookup other than [sql.ErrNoRows] is answered with
    a 500 that carries it, without a call to the provider and without a
    change of the store. *)
Theorem ReportLocationWeather_lookup_failure W r db params e :
  Method r = MethodGet →
  ParseQuery r = inr params →
  FetchFault W = Some e →
  e ≠ ErrNoRows →
  ReportLocationWeather W r db
  = {| response := InternalServerError e; store := db;
       trace := [EvFetchLocationWeather (Title W (Get params "city"))] |}.
Proof.
  intros Hm Hp Hf He. unfold ReportLocationWeather.
  rewrite Hm, Hp, decide_False by (by intros ?).
  by rewrite Hf, FetchLocationWeather_fault, decide_False.
Qed.

Lemma ReportLocationWeather_lookup_failure_witness :
  let W := {| Title := λ s, s; Now := Scenario.at_second 90;
              NowInsert := Scenario.at_second 90;
              FetchCurrentWeatherByLocationName := λ _, (Some Scenario.clear_sky, None);
              FetchFault := Some (ErrOther "pq: connection reset");
              IncrFault := Scenario.no_incr_faults;
              TxnFault := Scenario.no_txn_faults |} in
  ReportLocationWeather W (Scenario.get_weather Scenario.Reno) Scenario.reno_only
  = {| response := InternalServerError (ErrOther "pq: connection reset");
       store := Scenario.reno_only;
       trace := [EvFetchLocationWeather Scenario.Reno] |}.
Proof.
  intros W.
  rewrite (ReportLocationWeather_lookup_failure W (Scenario.get_weather Scenario.Reno)
             Scenario.reno_only (<["city" := [Scenario.Reno]]> ∅)
             (ErrOther "pq: connection reset"));
    [vm_compute; reflexivity|reflexivity|reflexivity|reflexivity|discriminate].
Defined.

(** X16: the handler never calls [IncrQueryCount], and it changes the store
    only through the write-back: in a run without a call of
    [UpdateCachedLocationWeather] the store is left as it was. *)
Theorem ReportLocationWeather_writes_only_by_write_back W r db :
  let out := ReportLocationWeather W r db in
  (∀ name, EvIncrQueryCount name ∉ trace out) ∧
  ((∀ cityName ended, EvUpdateCachedLocationWeather cityName ended ∉ trace out) →
   store out = db).
Proof.
  simpl. unfold ReportLocationWeather.
  case_decide; [split; [by intros ? ?%elem_of_nil|done]|].
  destruct (ParseQuery r) as [err|params]; [split; [by intros ? ?%elem_of_nil|done]|].
  set (cityName := Title W (Get params "city")).
  destruct (FetchLocationWeather_returns_no_rows (FetchFault W) db cityName) as (err & -> & _).
  destruct err as [e|].
  { split; [|done]. by intros ? ?%list_elem_of_singleton. }
  rewrite after_lookup_nil.
  destruct (refresh_and_respond_trace W cityName db [EvFetchLocationWeather cityName])
    as (rest & E & Hrest).
  split.
  - intros name. rewrite E. simpl.
    intros [?|[?|Hin]%elem_of_cons]%elem_of_cons; [done|done|].
    by destruct (Hrest _ Hin).
  - unfold refresh_and_respond in *.
    destruct (FetchCurrentWeatherByLocationName W cityName) as [[location|] [e|]]; try done.
    case_decide; [by destruct (Message location)|].
    destruct (Main location) as [main|]; [|done].
    intros Hno. exfalso.
    match goal with
    | _ : context [UpdateCachedLocationWeather ?F ?n ?d ?c ?a ?b ?l] |- _ =>
        set (u := UpdateCachedLocationWeather F n d c a b l) in *
    end.
    apply (Hno cityName (upd_end u)).
    destruct (upd_err u); [|destruct (parseRows (upd_result u))]; simpl;
      do 2 apply list_elem_of_further; apply list_elem_of_here.
Qed.

(** A reading of second 0 looked up at second 30. *)
Lemma after_lookup_fresh_witness :
  trace (after_lookup (Scenario.world 30 Scenario.clear_sky) Scenario.Reno
           (Some (<["location" := LocationValue Scenario.reno_row]>
                    (<["weather" := WeatherValue Scenario.reno_reading]> ∅)))
           Scenario.reno_only [])
  = [EvIncrQueryCount (CityName Scenario.reno_row)] ∧
  (QueryCount <$> locations
     (store (after_lookup (Scenario.world 30 Scenario.clear_sky) Scenario.Reno
               (Some (<["location" := LocationValue Scenario.reno_row]>
                        (<["weather" := WeatherValue Scenario.reno_reading]> ∅)))
               Scenario.reno_only [])))
  = [int64_of 2] ∧
  response (after_lookup (Scenario.world 30 Scenario.clear_sky) Scenario.Reno
              (Some (<["location" := LocationValue Scenario.reno_row]>
                       (<["weather" := WeatherValue Scenario.reno_reading]> ∅)))
              Scenario.reno_only [])
  = respond Scenario.Reno (Some Scenario.reno_reading).
Proof.
  destruct (after_lookup_fresh (Scenario.world 30 Scenario.clear_sky) Scenario.Reno
              Scenario.reno_row Scenario.reno_reading Scenario.reno_only [])
    as (Ht & Hs & Hr).
  { vm_compute. reflexivity. }
  split; [exact Ht|]. split; [rewrite Hs; vm_compute; reflexivity|].
  apply Hr. reflexivity.
Defined.

End HandlerFacts.

(** ** Establishing the connection *)

Section ConnFacts.

Import Conn.

Lemma Establish_loop_spec retryCount outcome fuel turn DB :
  (turn ≤ Z.to_nat retryCount)%nat →
  (Z.to_nat retryCount - turn < fuel)%nat →
  (∀ j, (j < turn)%nat → outcome j ≠ Connects) →
  ∃ res,
    Establish_loop fuel retryCount outcome turn (Z.of_nat turn) turn DB = Some res ∧
    (est_waits res ≤ Z.to_nat retryCount)%nat ∧
    est_attempts res = Z.of_nat (est_waits res) ∧
    (∀ j, (j < est_waits res)%nat → outcome j ≠ Connects) ∧
    match est_err res with
    | None => outcome (est_waits res) = Connects
    | Some e => est_waits res = Z.to_nat retryCount ∧
                failure (outcome (Z.to_nat retryCount)) = Some e
    end.
Proof.
  revert turn DB. induction fuel as [|fuel IH]; intros turn DB Hle Hfuel Hbefore; [lia|].
  cbn [Establish_loop]. unfold timeout.
  assert (Hnext : ∀ DB' e,
            failure (outcome turn) = Some e →
            ∃ res,
              (if Z.of_nat turn >=? retryCount
               then Some {| est_err := Some e; est_attempts := Z.of_nat turn;
                            est_waits := turn; est_DB := DB' |}
               else Establish_loop fuel retryCount outcome (S turn)
                      (Z.of_nat turn + 1) (S turn) DB') = Some res ∧
              (est_waits res ≤ Z.to_nat retryCount)%nat ∧
              est_attempts res = Z.of_nat (est_waits res) ∧
              (∀ j, (j < est_waits res)%nat → outcome j ≠ Connects) ∧
              match est_err res with
              | None => outcome (est_waits res) = Connects
              | Some e => est_waits res = Z.to_nat retryCount ∧
                          failure (outcome (Z.to_nat retryCount)) = Some e
              end).
  { intros DB' e He. destruct (Z.of_nat turn >=? retryCount) eqn:Ht.
    - assert (turn = Z.to_nat retryCount) as Heq by lia.
      eexists. split; [done|]. simpl.
      split; [lia|]. split; [done|]. split; [exact Hbefore|]. split; [done|].
      by rewrite <- Heq.
    - replace (Z.of_nat turn + 1) with (Z.of_nat (S turn)) by lia.
      apply IH; [lia|lia|].
      intros j Hj. destruct (decide (j = turn)) as [->|]; [|apply Hbefore; lia].
      intros Hc. by rewrite Hc in He. }
  destruct (outcome turn) as [err|err|] eqn:Ho.
  - by apply Hnext.
  - by apply Hnext.
  - eexists. split; [done|]. simpl.
    split; [lia|]. split; [done|]. split; [exact Hbefore|done].
Qed.

(** X17: [Establish] ends after at most [retryCount] + 1 turns of its loop.
    It has slept once for each turn before the last; it returns nil exactly
    when its last turn connected, and otherwise it has used up all
    [retryCount] retries and returns the error of the last turn.  A first
    [Ping] that succeeds on an open connection returns nil with no turn at
    all. *)
Theorem Establish_bounded_retries fuel up retryCount outcome :
  (Z.to_nat retryCount < fuel)%nat →
  ∃ res,
    Establish fuel up retryCount outcome = Some res ∧
    (est_waits res ≤ Z.to_nat retryCount)%nat ∧
    est_attempts res = Z.of_nat (est_waits res) ∧
    (up = Some None → est_err res = None ∧ est_waits res = 0%nat ∧ est_DB res = None) ∧
    (up ≠ Some None →
     (∀ j, (j < est_waits res)%nat → outcome j ≠ Connects) ∧
     match est_err res with
     | None => outcome (est_waits res) = Connects
     | Some e => est_waits res = Z.to_nat retryCount ∧
                 failure (outcome (Z.to_nat retryCount)) = Some e
     end).
Proof.
  intros Hfuel. unfold Establish.
  destruct (Establish_loop_spec retryCount outcome fuel 0 None) as (res & E & H1 & H2 & H3);
    [lia|lia|intros; lia|].
  destruct up as [[e|]|].
  - exists res. split; [done|]. repeat split; try done; apply H3.
  - eexists. split; [done|]. simpl. repeat split; try done; lia.
  - exists res. split; [done|]. repeat split; try done; apply H3.
Qed.

Lemma Establish_bounded_retries_witness :
  ∃ res,
    Establish 4 None 3 (λ turn, if decide (turn = 2%nat) then Connects
                                else PingFails (ErrOther "pq: the database system is starting up"))
    = Some res ∧
    est_err res = None ∧ est_waits res = 2%nat.
Proof.
  destruct (Establish_bounded_retries 4 None 3
              (λ turn, if decide (turn = 2%nat) then Connects
                       else PingFails (ErrOther "pq: the database system is starting up")))
    as (res & E & _); [vm_compute; lia|].
  exists res. split; [exact E|].
  vm_compute in E. injection E as <-. split; reflexivity.
Defined.

End ConnFacts.

(** ** The statistics handler *)

Section StatsHandlerFacts.

Import Stats StatsHandler.

Lemma range_targets_spec lower v targets :
  range_targets lower v targets = true ↔ lower v ∈ targets.
Proof.
  induction targets as [|t targets IH]; simpl.
  - split; [done|by intros ?%elem_of_nil].
  - case_decide as H.
    + split; [|done]. intros _. rewrite H. left.
    + rewrite IH. split; [by right|]. by intros [?|?]%elem_of_cons.
Qed.

Lemma hasParam_spec lower p targets :
  hasParam lower p targets = true ↔ ∃ v, v ∈ p ∧ lower v ∈ targets.
Proof.
  induction p as [|v p IH]; simpl.
  - split; [done|]. by intros (v & ?%elem_of_nil & _).
  - destruct (range_targets lower v targets) eqn:E.
    + apply range_targets_spec in E. split; [|done]. intros _. exists v. split; [left|done].
    + rewrite IH. split.
      * intros (u & Hu & Ht). exists u. split; [by right|done].
      * intros (u & [->|Hu]%elem_of_cons & Ht); [|by eauto].
        apply range_targets_spec in Ht. congruence.
Qed.

(** X18: [hasParam] holds exactly when some value of the parameter, put in
    lower case, is one of the targets as they are written.  Without values,
    or without targets, it does not hold. *)
Theorem hasParam_iff lower p targets :
  (hasParam lower p targets = true ↔ ∃ v t, v ∈ p ∧ t ∈ targets ∧ lower v = t) ∧
  hasParam lower [] targets = false ∧
  hasParam lower p [] = false.
Proof.
  split; [|split; [done|]].
  - rewrite hasParam_spec. split.
    + intros (v & Hv & Ht). by exists v, (lower v).
    + intros (v & t & Hv & Ht & <-). by exists v.
  - destruct (hasParam lower p []) eqn:E; [|done].
    apply hasParam_spec in E as (v & _ & ?%elem_of_nil). done.
Qed.







(** X20: a request without a query is answered with a 202 that lists the
    valid parameters, and a request whose query keys are none of [count],
    [summary] and [temp] with an empty object; neither reads the store. *)
Theorem ReportWeatherStatistics_other_keys W r params :
  Method r = MethodGet →
  ParseQuery r = inr params →
  (∀ q, is_Some (params !! q) → q ≠ "count" ∧ q ≠ "summary" ∧ q ≠ "temp") →
  ReportWeatherStatistics W r
  = if decide (size params = 0%nat) then Stats202 ValidQueryParameters else StatsJSON ∅.
Proof.
  intros Hm Hp Hk. unfold ReportWeatherStatistics.
  rewrite Hm, Hp, decide_False by (by intros ?).
  case_decide; [done|].
  cut (map_fold (λ q p acc,
                   match acc with
                   | inl response => inl response
                   | inr stats => handle_param W q p stats
                   end) (inr ∅) params = inr ∅).
  { by intros ->. }
  revert Hk. clear.
  apply (map_fold_weak_ind
           (λ acc (m : gmap string (list string)),
              (∀ q, is_Some (m !! q) → q ≠ "count" ∧ q ≠ "summary" ∧ q ≠ "temp") →
              acc = inr ∅)); [done|].
  intros q p m acc Hq IH Hk. rewrite IH.
  - destruct (Hk q) as (H1 & H2 & H3); [by rewrite lookup_insert_eq|].
    unfold handle_param. by rewrite !decide_False.
  - intros q' Hq'. apply Hk. rewrite lookup_insert_ne; [done|].
    intros ->. rewrite Hq in Hq'. by destruct Hq'.
Qed.

Lemma ReportWeatherStatistics_other_keys_witness :
  ReportWeatherStatistics
    {| ToLower := lower; Store := Scenario.reno_only; CountFault := None;
       LabelsCursor := FetchRows []; SummaryCursor := FetchRows [];
       TemperatureCursor := Rows [] |}
    {| Method := "GET"; ParseQuery := inr {["units" := ["metric"]]} |}
  = StatsJSON ∅.
Proof.
  rewrite (ReportWeatherStatistics_other_keys _ _ {["units" := ["metric"]]});
    [reflexivity|reflexivity|reflexivity|].
  intros q [x Hq]. apply lookup_singleton_Some in Hq as [<- _].
  repeat split; discriminate.
Defined.

End StatsHandlerFacts.

(** ** Accounts and bookmarks *)

Section AccountFacts.

Import Accounts.

Implicit Types (F : Faults) (T : Tables) (username : string) (acc : AccountRow).

Lemma existsb_false {A} (p : A → bool) (l : list A) :
  existsb p l = false ↔ ∀ x, x ∈ l → p x = false.
Proof.
  induction l as [|a l IH]; simpl.
  - split; [intros _ x Hx; by apply elem_of_nil in Hx | done].
  - rewrite orb_false_iff, IH. split.
    + intros [Ha Hl] x [->|Hx]%elem_of_cons; auto.
    + intros H. split; [apply H; left | intros x Hx; apply H; by right].
Qed.

Lemma filter_none {A} (p : A → bool) (l : list A) :
  (∀ x, x ∈ l → p x = false) → filter (λ x, p x = true) l = [].
Proof.
  induction l as [|a l IH]; intros H; [done|].
  rewrite filter_cons. destruct (decide (p a = true)) as [E|_].
  - rewrite H in E; [done | left].
  - apply IH. intros x Hx. apply H. by right.
Qed.

Lemma filter_first {A} (p : A → bool) (l : list A) (a : A) :
  (∀ x, x ∈ l → p x = false) → p a = true →
  filter (λ x, p x = true) (l ++ [a]) = [a].
Proof.
  intros H Ha. rewrite filter_app, (filter_none p l H). simpl.
  rewrite filter_cons. by destruct (decide (p a = true)).
Qed.

Lemma user_name_is_string_of username :
  user_name_is username {| Name := string_of username;
                           AccountID := int64_of 0 |} = true.
Proof. unfold user_name_is. simpl. by rewrite bool_decide_eq_true_2. Qed.

Lemma same_id_int64_of (n : Z) : same_id (int64_of n) (int64_of n) = true.
Proof. unfold same_id. simpl. by rewrite bool_decide_eq_true_2. Qed.

(** The account a registration leaves is the one [ExistingAccount] finds. *)
Lemma ExistingAccount_registered F username id (rows : list AccountRow) T :
  FailExistingAccount F = None →
  (∀ a, a ∈ rows → user_name_is username a = false) →
  accounts T = rows ++ [{| Name := string_of username; AccountID := int64_of id |}] →
  ExistingAccount F T username =
    (Some {| Name := string_of username; AccountID := int64_of id |}, None).
Proof.
  intros HF Hrows HT. unfold ExistingAccount. rewrite HT, filter_first; [|done|].
  - unfold scan_row. by rewrite HF.
  - unfold user_name_is. simpl. by rewrite bool_decide_eq_true_2.
Qed.

Lemma GetBookmarkCollectionIDs_missing F T acc :
  FailGetBookmarkCollectionIDs F = None →
  (∀ b, b ∈ bookmarks T → same_id (BookmarkID b) (AccountID acc) = false) →
  GetBookmarkCollectionIDs F T acc = (None, None).
Proof.
  intros HF Hb. unfold GetBookmarkCollectionIDs.
  rewrite (filter_none (λ b, same_id (BookmarkID b) (AccountID acc))); [|done].
  unfold scan_row. rewrite HF. by destruct (decide (ErrNoRows = ErrNoRows)).
Qed.

Lemma NewAccount_taken F T username :
  FailNewAccount F = None →
  existsb (user_name_is username) (accounts T) = true →
  NewAccount F T username =
    (None, Some ErrNoRows,
     {| accounts := accounts T; accounts_id_seq := accounts_id_seq T + 1;
        bookmarks := bookmarks T; places := places T |}).
Proof. intros HF Hex. unfold NewAccount. by rewrite HF, Hex. Qed.

Lemma NewAccount_fresh F T username :
  FailNewAccount F = None →
  (∀ a, a ∈ accounts T → user_name_is username a = false) →
  (∀ a, a ∈ accounts T →
        same_id (AccountID a) (int64_of (accounts_id_seq T + 1)) = false) →
  NewAccount F T username =
    (Some {| Name := string_of username; AccountID := int64_of (accounts_id_seq T + 1) |},
     None,
     {| accounts := accounts T ++ [{| Name := string_of username;
                                      AccountID := int64_of (accounts_id_seq T + 1) |}];
        accounts_id_seq := accounts_id_seq T + 1;
        bookmarks := bookmarks T; places := places T |}).
Proof.
  intros HF Hname Hid. unfold NewAccount. rewrite HF.
  apply existsb_false in Hname. rewrite Hname.
  apply (existsb_false (λ a, same_id (AccountID a) (int64_of (accounts_id_seq T + 1)))) in Hid.
  by rewrite Hid.
Qed.

(** X21: A GET of the bookmarks of an account that has no row in
    [bookmarks] does not answer: the branch for a missing collection formats
    [col.ID.Int64] of the nil [col], so the handler panics. *)
Theorem AccountBookmarksCollectionAction_missing_collection_panics
    F T (r : Request BookmarkPayload) params acc :
  Accounts.Method r = MethodGet →
  Accounts.ParseQuery r = inr params →
  ExistingAccount F T (Get params "username") = (Some acc, None) →
  FailGetBookmarkCollectionIDs F = None →
  (∀ b, b ∈ bookmarks T → same_id (BookmarkID b) (AccountID acc) = false) →
  AccountBookmarksCollectionAction F T r = (Panic, T).
Proof.
  intros Hm Hq Hacc HF Hb. unfold AccountBookmarksCollectionAction.
  rewrite decide_True by done. rewrite Hq, Hacc.
  by rewrite GetBookmarkCollectionIDs_missing.
Qed.

Lemma AccountBookmarksCollectionAction_missing_collection_panics_witness :
  AccountBookmarksCollectionAction no_faults AccountScenario.orphan
    (AccountScenario.get "foobar") = (Panic, AccountScenario.orphan).
Proof.
  apply (AccountBookmarksCollectionAction_missing_collection_panics
           no_faults AccountScenario.orphan (AccountScenario.get "foobar")
           {[ "username" := ["foobar"] ]} AccountScenario.foobar);
    [reflexivity | reflexivity | vm_compute; reflexivity | reflexivity |].
  intros b Hb. by apply elem_of_nil in Hb.
Defined.

(** X22: Registering a user name that is taken answers 500 with
    [sql.ErrNoRows], the error of scanning the empty result of [on conflict
    do nothing], and leaves the rows of the three tables as they were. *)
Theorem CreateNewAccount_duplicate_username
    F T (r : Request (gmap string string)) payload a :
  Accounts.Method r = MethodPost →
  Decode r = inr payload →
  FailNewAccount F = None →
  a ∈ accounts T →
  StringValid (Name a) = true →
  String (Name a) = default "" (payload !! "username") →
  ∃ T', CreateNewAccount F T r = (ServerError ErrNoRows, T') ∧
        accounts T' = accounts T ∧ bookmarks T' = bookmarks T ∧ places T' = places T.
Proof.
  intros Hm Hd HF Ha Hv Hn. eexists. unfold CreateNewAccount.
  rewrite decide_False by (by rewrite Hm; intros H; apply H).
  rewrite Hd. rewrite NewAccount_taken; [done..|].
  apply existsb_exists. exists a. split; [by apply list_elem_of_In|].
  unfold user_name_is. rewrite Hv. simpl. by apply bool_decide_eq_true_2.
Qed.

Lemma CreateNewAccount_duplicate_username_witness :
  ∃ T', CreateNewAccount no_faults AccountScenario.registered
          (AccountScenario.register "foobar") = (ServerError ErrNoRows, T') ∧
        accounts T' = accounts AccountScenario.registered ∧
        bookmarks T' = bookmarks AccountScenario.registered ∧
        places T' = places AccountScenario.registered.
Proof.
  apply (CreateNewAccount_duplicate_username no_faults AccountScenario.registered
           (AccountScenario.register "foobar") {[ "username" := "foobar" ]}
           AccountScenario.foobar);
    [reflexivity | reflexivity | reflexivity | | reflexivity | vm_compute; reflexivity].
  apply list_elem_of_here.
Defined.

(** X23: A registration followed by the two lookups: for a user name that
    is free, the handler answers with the name, the next id of the sequence
    as account id and as collection id, and no bookmarked ids; afterwards
    [GetAccountUserInfo] for that name answers with the same name and id, and
    a GET of the bookmarks answers with the empty list. *)
Theorem CreateNewAccount_then_lookup F T (r : Request (gmap string string)) payload :
  Accounts.Method r = MethodPost →
  Decode r = inr payload →
  FailNewAccount F = None →
  FailNewBookmarkCollection F = None →
  (∀ a, a ∈ accounts T → user_name_is (default "" (payload !! "username")) a = false) →
  (∀ a, a ∈ accounts T →
        same_id (AccountID a) (int64_of (accounts_id_seq T + 1)) = false) →
  (∀ b, b ∈ bookmarks T →
        same_id (BookmarkID b) (int64_of (accounts_id_seq T + 1)) = false) →
  ∃ T',
    CreateNewAccount F T r =
      (Created (default "" (payload !! "username")) (accounts_id_seq T + 1)
               (accounts_id_seq T + 1) None, T') ∧
    (∀ F' (q : Request unit) params,
        Accounts.Method q = MethodGet →
        Accounts.ParseQuery q = inr params →
        Get params "username" = default "" (payload !! "username") →
        FailExistingAccount F' = None →
        GetAccountUserInfo F' T' q =
          UserInfo (default "" (payload !! "username")) (accounts_id_seq T + 1)) ∧
    (∀ F' (q : Request BookmarkPayload) params,
        Accounts.Method q = MethodGet →
        Accounts.ParseQuery q = inr params →
        Get params "username" = default "" (payload !! "username") →
        FailExistingAccount F' = None →
        FailGetBookmarkCollectionIDs F' = None →
        FailNamesFromIDs F' = None →
        AccountBookmarksCollectionAction F' T' q = (Bookmarks (Some []), T')).
Proof.
  intros Hm Hd HF1 HF2 Hname Hid Hbid.
  set (username := default "" (payload !! "username")) in *.
  set (id := accounts_id_seq T + 1) in *.
  eexists. split; [|split].
  - unfold CreateNewAccount.
    rewrite decide_False by (by rewrite Hm; intros H; apply H).
    rewrite Hd. fold username. rewrite NewAccount_fresh by done. fold id.
    unfold NewBookmarkCollection. rewrite HF2. cbn.
    apply (existsb_false (λ b, same_id (BookmarkID b) (int64_of id))) in Hbid.
    rewrite Hbid. reflexivity.
  - intros F' q params Hq Hp Hu HF'. unfold GetAccountUserInfo.
    rewrite decide_False by (by rewrite Hq; intros H; apply H).
    rewrite Hp, Hu.
    by rewrite (ExistingAccount_registered F' username id (accounts T)).
  - intros F' q params Hq Hp Hu HFe HFg HFn. unfold AccountBookmarksCollectionAction.
    rewrite decide_True by done. rewrite Hp, Hu.
    rewrite (ExistingAccount_registered F' username id (accounts T)) by done.
    unfold GetBookmarkCollectionIDs. cbn [bookmarks AccountID].
    rewrite (filter_first (λ b, same_id (BookmarkID b) (int64_of id)));
      [|done|apply same_id_int64_of].
    unfold scan_row. rewrite HFg. unfold bookmarks_of, NamesFromIDs. rewrite HFn.
    cbn [LocationIDs]. rewrite (filter_none (id_any None)); [done|].
    intros l _. unfold id_any. simpl. apply andb_false_r.
Qed.

Lemma CreateNewAccount_then_lookup_witness :
  ∃ T',
    CreateNewAccount no_faults AccountScenario.fresh (AccountScenario.register "foobar")
    = (Created "foobar" 1 1 None, T') ∧
    GetAccountUserInfo no_faults T' (AccountScenario.get "foobar") = UserInfo "foobar" 1 ∧
    AccountBookmarksCollectionAction no_faults T' (AccountScenario.get "foobar")
    = (Bookmarks (Some []), T').
Proof.
  destruct (CreateNewAccount_then_lookup no_faults AccountScenario.fresh
              (AccountScenario.register "foobar") {[ "username" := "foobar" ]})
    as (T' & Hcreate & Hinfo & Hget);
    [reflexivity | reflexivity | reflexivity | reflexivity
    | intros a Ha; by apply elem_of_nil in Ha
    | intros a Ha; by apply elem_of_nil in Ha
    | intros b Hb; by apply elem_of_nil in Hb |].
  exists T'. split; [exact Hcreate|]. split.
  - apply (Hinfo no_faults _ {[ "username" := ["foobar"] ]});
      [reflexivity | reflexivity | vm_compute; reflexivity | reflexivity].
  - apply (Hget no_faults _ {[ "username" := ["foobar"] ]});
      [reflexivity | reflexivity | vm_compute; reflexivity | reflexivity..].
Defined.

(** X24: The registration is not atomic: when the insert into [bookmarks]
    fails after the account was inserted, the handler answers 500 and the
    account stays.  The same registration then fails for good with
    [sql.ErrNoRows], and a GET of the account's bookmarks panics. *)
Theorem CreateNewAccount_not_atomic F T (r : Request (gmap string string)) payload e :
  Accounts.Method r = MethodPost →
  Decode r = inr payload →
  FailNewAccount F = None →
  FailNewBookmarkCollection F = Some e →
  (∀ a, a ∈ accounts T → user_name_is (default "" (payload !! "username")) a = false) →
  (∀ a, a ∈ accounts T →
        same_id (AccountID a) (int64_of (accounts_id_seq T + 1)) = false) →
  (∀ b, b ∈ bookmarks T →
        same_id (BookmarkID b) (int64_of (accounts_id_seq T + 1)) = false) →
  ∃ T',
    CreateNewAccount F T r = (ServerError e, T') ∧
    bookmarks T' = bookmarks T ∧
    (∀ F', FailNewAccount F' = None →
           ∃ T'', CreateNewAccount F' T' r = (ServerError ErrNoRows, T'') ∧
                  accounts T'' = accounts T' ∧ bookmarks T'' = bookmarks T) ∧
    (∀ F' (q : Request BookmarkPayload) params,
        Accounts.Method q = MethodGet →
        Accounts.ParseQuery q = inr params →
        Get params "username" = default "" (payload !! "username") →
        FailExistingAccount F' = None →
        FailGetBookmarkCollectionIDs F' = None →
        AccountBookmarksCollectionAction F' T' q = (Panic, T')).
Proof.
  intros Hm Hd HF1 HF2 Hname Hid Hbid.
  set (username := default "" (payload !! "username")) in *.
  set (id := accounts_id_seq T + 1) in *.
  eexists. split; [|split; [|split]].
  - unfold CreateNewAccount.
    rewrite decide_False by (by rewrite Hm; intros H; apply H).
    rewrite Hd. fold username. rewrite NewAccount_fresh by done. fold id.
    unfold NewBookmarkCollection. rewrite HF2. reflexivity.
  - reflexivity.
  - intros F' HF'. eexists. unfold CreateNewAccount.
    rewrite decide_False by (by rewrite Hm; intros H; apply H).
    rewrite Hd. fold username. rewrite NewAccount_taken; [done..|].
    cbn [accounts]. rewrite existsb_app. simpl.
    unfold user_name_is at 2. simpl. rewrite bool_decide_eq_true_2 by done.
    apply orb_true_iff. right. reflexivity.
  - intros F' q params Hq Hp Hu HFe HFg.
    unfold AccountBookmarksCollectionAction.
    rewrite decide_True by done. rewrite Hp, Hu.
    rewrite (ExistingAccount_registered F' username id (accounts T)) by done.
    by rewrite GetBookmarkCollectionIDs_missing.
Qed.

Lemma CreateNewAccount_not_atomic_witness :
  ∃ T',
    CreateNewAccount (AccountScenario.bookmark_insert_fails (ErrOther "pq: deadlock detected"))
      AccountScenario.fresh (AccountScenario.register "foobar")
    = (ServerError (ErrOther "pq: deadlock detected"), T') ∧
    accounts T' = [AccountScenario.foobar] ∧
    fst (CreateNewAccount no_faults T' (AccountScenario.register "foobar"))
    = ServerError ErrNoRows ∧
    AccountBookmarksCollectionAction no_faults T' (AccountScenario.get "foobar")
    = (Panic, T').
Proof.
  destruct (CreateNewAccount_not_atomic
              (AccountScenario.bookmark_insert_fails (ErrOther "pq: deadlock detected"))
              AccountScenario.fresh (AccountScenario.register "foobar")
              {[ "username" := "foobar" ]} (ErrOther "pq: deadlock detected"))
    as (T' & Hcreate & Hb & Hretry & Hget);
    [reflexivity | reflexivity | reflexivity | reflexivity
    | intros a Ha; by apply elem_of_nil in Ha
    | intros a Ha; by apply elem_of_nil in Ha
    | intros b Hb; by apply elem_of_nil in Hb |].
  exists T'. split; [exact Hcreate|]. split; [|split].
  - vm_compute in Hcreate. by injection Hcreate as <-.
  - destruct (Hretry no_faults eq_refl) as (T'' & E & _). by rewrite E.
  - apply (Hget no_faults _ {[ "username" := ["foobar"] ]});
      [reflexivity | reflexivity | vm_compute; reflexivity | reflexivity..].
Defined.

Lemma foldl_snoc {A} (acc l : list A) : foldl (λ ids b, ids ++ [b]) acc l = acc ++ l.
Proof.
  revert acc. induction l as [|a l IH]; intros acc; simpl; [by rewrite app_nil_r|].
  by rewrite IH, <- app_assoc.
Qed.

Lemma foldl_names (acc : list string) (ls : list LocationRow) :
  foldl (λ names l, if StringValid (CityName l) then names ++ [String (CityName l)]
                    else names) acc ls
  = acc ++ Store.names ls.
Proof.
  revert acc. induction ls as [|l ls IH]; intros acc; simpl; [by rewrite app_nil_r|].
  rewrite IH. unfold Store.names. simpl.
  destruct (StringValid (CityName l)); [by rewrite <- app_assoc | done].
Qed.

Lemma foldl_ids (acc : list Z) (ls : list LocationRow) :
  foldl (λ ids l, if Int64Valid (ID l) then ids ++ [Int64 (ID l)] else ids) acc ls
  = acc ++ omap (λ l, if Int64Valid (ID l) then Some (Int64 (ID l)) else None) ls.
Proof.
  revert acc. induction ls as [|l ls IH]; intros acc; simpl; [by rewrite app_nil_r|].
  rewrite IH. destruct (Int64Valid (ID l)); [by rewrite <- app_assoc | done].
Qed.

(** The names [NamesFromIDs] returns: those of the locations whose id is in
    the array. *)
Lemma NamesFromIDs_spec F T (b : BookmarkRow) :
  FailNamesFromIDs F = None →
  ∃ names, NamesFromIDs F T b = (Some names, None) ∧
    ∀ n, n ∈ names ↔
         ∃ l, l ∈ places T ∧ StringValid (CityName l) = true ∧ String (CityName l) = n ∧
              Int64Valid (ID l) = true ∧ Int64 (ID l) ∈ default [] (LocationIDs b).
Proof.
  intros HF. unfold NamesFromIDs. rewrite HF. eexists. split; [done|].
  intros n. rewrite foldl_names, app_nil_l. unfold Store.names.
  rewrite list_elem_of_omap. split.
  - intros (l & [Hany Hl]%list_elem_of_filter & Hn). exists l.
    unfold id_any in Hany. apply andb_true_iff in Hany as [Hv Hin].
    apply bool_decide_eq_true_1 in Hin.
    destruct (StringValid (CityName l)); [|done]. by simplify_eq.
  - intros (l & Hl & Hv & Hn & Hi & Hin). exists l. split.
    + apply list_elem_of_filter. split; [|done].
      unfold id_any. rewrite Hi. simpl. by apply bool_decide_eq_true_2.
    + rewrite Hv. by rewrite Hn.
Qed.

(** The ids [IDsFromNames] returns: those of the locations whose name is
    among the given ones. *)
Lemma IDsFromNames_spec F T (names : list string) :
  FailIDsFromNames F = None →
  ∃ ids, IDsFromNames F T names = (Some ids, None) ∧
    ∀ i, i ∈ ids ↔
         ∃ l, l ∈ places T ∧ Int64Valid (ID l) = true ∧ Int64 (ID l) = i ∧
              StringValid (CityName l) = true ∧ String (CityName l) ∈ names.
Proof.
  intros HF. unfold IDsFromNames. rewrite HF. eexists. split; [done|].
  intros i. rewrite foldl_ids, app_nil_l, list_elem_of_omap. split.
  - intros (l & [Hany Hl]%list_elem_of_filter & Hi). exists l.
    unfold city_name_any in Hany. apply andb_true_iff in Hany as [Hv Hin].
    apply bool_decide_eq_true_1 in Hin.
    destruct (Int64Valid (ID l)); [|done]. by simplify_eq.
  - intros (l & Hl & Hv & Hi & Hn & Hin). exists l. split.
    + apply list_elem_of_filter. split; [|done].
      unfold city_name_any. rewrite Hn. simpl. by apply bool_decide_eq_true_2.
    + rewrite Hv. by rewrite Hi.
Qed.

Lemma filter_update (u : NullInt64) (g : BookmarkRow → BookmarkRow) (bs : list BookmarkRow) :
  (∀ b, BookmarkID (g b) = BookmarkID b) →
  filter (λ b, same_id (BookmarkID b) u = true) (g <$> bs)
  = g <$> filter (λ b, same_id (BookmarkID b) u = true) bs.
Proof.
  intros Hg. induction bs as [|b bs IH]; [done|].
  rewrite fmap_cons, !filter_cons, Hg, IH.
  by destruct (decide (same_id (BookmarkID b) u = true)).
Qed.

Lemma GetBookmarkCollectionIDs_found F T acc col :
  GetBookmarkCollectionIDs F T acc = (Some col, None) →
  FailGetBookmarkCollectionIDs F = None ∧
  same_id (BookmarkID col) (AccountID acc) = true ∧
  ∃ rest, filter (λ b, same_id (BookmarkID b) (AccountID acc) = true) (bookmarks T)
          = col :: rest.
Proof.
  unfold GetBookmarkCollectionIDs, scan_row.
  destruct (FailGetBookmarkCollectionIDs F) as [e|].
  { by destruct (decide (e = ErrNoRows)). }
  destruct (filter _ (bookmarks T)) as [|b rest] eqn:E.
  { by destruct (decide (ErrNoRows = ErrNoRows)). }
  intros [= ->]. split; [done|]. split; [|by exists rest].
  assert (Hin : col ∈ filter (λ b, same_id (BookmarkID b) (AccountID acc) = true) (bookmarks T))
    by (rewrite E; left).
  by apply list_elem_of_filter in Hin as [? _].
Qed.

(** X25: A POST of bookmarks appends to the account's array the ids of the
    requested names that are known locations, and answers with the names of
    all bookmarked locations: a name is in the answer exactly if it was
    bookmarked before or is a requested name of a known location.  Unknown
    names are dropped without a word.  The new array is what a later read of
    the collection finds. *)
Theorem AccountBookmarksCollectionAction_POST_adds_known_locations
    F T (r : Request BookmarkPayload) payload acc col before :
  Accounts.Method r = MethodPost →
  Decode r = inr payload →
  ExistingAccount F T (Username payload) = (Some acc, None) →
  FailIDsFromNames F = None →
  FailUpdateBookmarkCollectionIDs F = None →
  GetBookmarkCollectionIDs F T acc = (Some col, None) →
  NamesFromIDs F T col = (Some before, None) →
  (∀ l l', l ∈ places T → l' ∈ places T →
           Int64Valid (ID l) = true → Int64Valid (ID l') = true →
           Int64 (ID l) = Int64 (ID l') → l = l') →
  ∃ after ids T',
    AccountBookmarksCollectionAction F T r = (Bookmarks (Some after), T') ∧
    IDsFromNames F T (Locations payload) = (Some ids, None) ∧
    accounts T' = accounts T ∧ places T' = places T ∧
    GetBookmarkCollectionIDs F T' acc =
      (Some {| BookmarkID := BookmarkID col;
               LocationIDs := Some (default [] (LocationIDs col) ++ ids) |}, None) ∧
    ∀ n, n ∈ after ↔
         n ∈ before ∨
         (n ∈ Locations payload ∧
          ∃ l, l ∈ places T ∧ StringValid (CityName l) = true ∧ String (CityName l) = n ∧
               Int64Valid (ID l) = true).
Proof.
  intros Hm Hd Hacc HFi HFu Hget Hbefore Hpk.
  destruct (GetBookmarkCollectionIDs_found _ _ _ _ Hget) as (HFg & Hcol & rest & Hrows).
  assert (HFn : FailNamesFromIDs F = None).
  { unfold NamesFromIDs in Hbefore. by destruct (FailNamesFromIDs F). }
  destruct (IDsFromNames_spec F T (Locations payload) HFi) as (ids & Hids & Hids_spec).
  set (g := λ b : BookmarkRow,
              if same_id (BookmarkID b) (AccountID acc)
              then {| BookmarkID := BookmarkID b;
                      LocationIDs := array_cat (LocationIDs b) ids |}
              else b).
  assert (Hg : ∀ b, BookmarkID (g b) = BookmarkID b).
  { intros b. unfold g. by destruct (same_id (BookmarkID b) (AccountID acc)). }
  set (T' := {| accounts := accounts T; accounts_id_seq := accounts_id_seq T;
                bookmarks := g <$> bookmarks T; places := places T |}).
  set (col' := {| BookmarkID := AccountID acc;
                  LocationIDs := Some (default [] (LocationIDs col) ++ ids) |}).
  destruct (NamesFromIDs_spec F T' col' HFn) as (after & Hafter & Hafter_spec).
  destruct (NamesFromIDs_spec F T col HFn) as (before' & Hbefore' & Hbefore_spec).
  rewrite Hbefore in Hbefore'. injection Hbefore' as <-.
  assert (Hupd : UpdateBookmarkCollectionIDs F T acc ids = (Some col', None, T')).
  { unfold UpdateBookmarkCollectionIDs. rewrite HFu, foldl_snoc, app_nil_l.
    fold g. rewrite (filter_update (AccountID acc) g) by done. rewrite Hrows, fmap_cons.
    unfold g at 1. rewrite Hcol. reflexivity. }
  exists after, ids, T'. split; [|split; [done|split; [done|split; [done|split]]]].
  - unfold AccountBookmarksCollectionAction.
    rewrite decide_False by (by rewrite Hm).
    rewrite decide_True by done.
    rewrite Hd, Hacc, Hids. change (default [] (Some ids)) with ids. rewrite Hupd.
    unfold bookmarks_of. by rewrite Hafter.
  - unfold GetBookmarkCollectionIDs. cbn [bookmarks T'].
    rewrite (filter_update (AccountID acc) g) by done. rewrite Hrows, fmap_cons.
    unfold scan_row. rewrite HFg. unfold g at 1. rewrite Hcol. reflexivity.
  - intros n. rewrite Hafter_spec, Hbefore_spec. cbn [places T' LocationIDs col' default].
    split.
    + intros (l & Hl & Hv & Hn & Hi & [Hin|Hin]%elem_of_app).
      * left. by exists l.
      * right. apply Hids_spec in Hin as (l' & Hl' & Hi' & Heq & Hv' & Hin').
        assert (l' = l) as -> by (by apply Hpk).
        split; [by rewrite <- Hn | by exists l].
    + intros [(l & Hl & Hv & Hn & Hi & Hin) | (Hin & l & Hl & Hv & Hn & Hi)];
        exists l; (split; [done|split; [done|split; [done|split; [done|]]]]);
        apply elem_of_app; [by left | right].
      apply Hids_spec. exists l. by rewrite Hn.
Qed.

Lemma AccountBookmarksCollectionAction_POST_adds_known_locations_witness :
  ∃ after ids T',
    AccountBookmarksCollectionAction no_faults AccountScenario.registered
      (AccountScenario.post {| Username := "foobar"; Locations := ["Oslo"; "Atlantis"] |})
    = (Bookmarks (Some after), T') ∧
    ids = [2] ∧
    GetBookmarkCollectionIDs no_faults T' AccountScenario.foobar
    = (Some {| BookmarkID := int64_of 1; LocationIDs := Some [1; 2] |}, None) ∧
    ("Reno" ∈ after ∧ "Oslo" ∈ after ∧ "Atlantis" ∉ after).
Proof.
  destruct (AccountBookmarksCollectionAction_POST_adds_known_locations
              no_faults AccountScenario.registered
              (AccountScenario.post {| Username := "foobar"; Locations := ["Oslo"; "Atlantis"] |})
              {| Username := "foobar"; Locations := ["Oslo"; "Atlantis"] |}
              AccountScenario.foobar
              {| BookmarkID := int64_of 1; LocationIDs := Some [1] |} ["Reno"])
    as (after & ids & T' & Hpost & Hids & _ & _ & Hget & Hafter);
    [reflexivity | reflexivity | vm_compute; reflexivity | reflexivity | reflexivity
    | vm_compute; reflexivity | vm_compute; reflexivity | |].
  { intros l l' Hl Hl' _ _. unfold AccountScenario.registered, AccountScenario.cities in *.
    simpl in Hl, Hl'.
    apply elem_of_cons in Hl as [->|Hl]; [|apply list_elem_of_singleton in Hl as ->];
      (apply elem_of_cons in Hl' as [->|Hl']; [|apply list_elem_of_singleton in Hl' as ->]);
      simpl; intros E; try reflexivity; discriminate E. }
  exists after, ids, T'. split; [exact Hpost|]. split; [|split; [|split; [|split]]].
  - vm_compute in Hids. by injection Hids as <-.
  - vm_compute in Hids. injection Hids as <-. exact Hget.
  - apply Hafter. left. apply list_elem_of_here.
  - apply Hafter. right. split; [apply list_elem_of_here|].
    exists (AccountScenario.place 2 "Oslo").
    split; [apply list_elem_of_further, list_elem_of_here | by repeat split].
  - intros [Hin | [_ (l & Hl & _ & Hn & _)]]%Hafter.
    + apply list_elem_of_singleton in Hin. discriminate Hin.
    + unfold AccountScenario.registered, AccountScenario.cities in Hl. simpl in Hl.
      apply elem_of_cons in Hl as [->|Hl]; [|apply list_elem_of_singleton in Hl as ->];
        discriminate Hn.
Defined.

(** X28: a user name without an account is no error for any of the three
    lookups: each answers with the message that no account was found, with
    the name as it was sent, and leaves the tables alone; the update of
    bookmarks does not get as far as the locations. *)
Theorem unknown_account_message F T username :
  FailExistingAccount F = None →
  (∀ a, a ∈ accounts T → user_name_is username a = false) →
  (∀ (q : Request unit) params,
     Accounts.Method q = MethodGet → Accounts.ParseQuery q = inr params →
     Get params "username" = username →
     GetAccountUserInfo F T q
     = Message ("no account found with that username: " +:+ username)) ∧
  (∀ (q : Request BookmarkPayload) params,
     Accounts.Method q = MethodGet → Accounts.ParseQuery q = inr params →
     Get params "username" = username →
     AccountBookmarksCollectionAction F T q
     = (Message ("no account found with that username: " +:+ username), T)) ∧
  (∀ (q : Request BookmarkPayload) payload,
     Accounts.Method q = MethodPost → Decode q = inr payload →
     Username payload = username →
     AccountBookmarksCollectionAction F T q
     = (Message ("no account found with that username: " +:+ username), T)).
Proof.
  intros HF Hnone.
  assert (Hacc : ExistingAccount F T username = (None, None)).
  { unfold ExistingAccount. rewrite (filter_none (user_name_is username)) by done.
    unfold scan_row. rewrite HF. by destruct (decide (ErrNoRows = ErrNoRows)). }
  split; [|split].
  - intros q params Hm Hp Hu. unfold GetAccountUserInfo.
    rewrite decide_False by (by rewrite Hm; intros H; apply H).
    by rewrite Hp, Hu, Hacc.
  - intros q params Hm Hp Hu. unfold AccountBookmarksCollectionAction.
    rewrite decide_True by done. by rewrite Hp, Hu, Hacc.
  - intros q payload Hm Hd Hu. unfold AccountBookmarksCollectionAction.
    rewrite decide_False by (by rewrite Hm).
    rewrite decide_True by done. by rewrite Hd, Hu, Hacc.
Qed.

Lemma unknown_account_message_witness :
  GetAccountUserInfo no_faults AccountScenario.registered (AccountScenario.get "nobody")
  = Message "no account found with that username: nobody" ∧
  AccountBookmarksCollectionAction no_faults AccountScenario.registered
    (AccountScenario.post {| Username := "nobody"; Locations := ["Reno"] |})
  = (Message "no account found with that username: nobody", AccountScenario.registered).
Proof.
  destruct (unknown_account_message no_faults AccountScenario.registered "nobody")
    as (Hinfo & _ & Hpost); [reflexivity | |].
  { intros a Ha. apply list_elem_of_singleton in Ha as ->. reflexivity. }
  split.
  - apply (Hinfo _ {[ "username" := ["nobody"] ]});
      [reflexivity | reflexivity | vm_compute; reflexivity].
  - apply (Hpost _ {| Username := "nobody"; Locations := ["Reno"] |}); reflexivity.
Defined.

End AccountFacts.

(** ** Executing the statements of a file *)

Section ExecFacts.

Import Exec.

Lemma Split_nonempty s : Split s ≠ [].
Proof.
  destruct s as [|c s]; simpl; [done|].
  destruct (Ascii.eqb c (Ascii.ascii_of_nat 59)); [done|].
  by destruct (Split s).
Qed.

Lemma Join_Split s : Join (Split s) = s.
Proof.
  induction s as [|c s IH]; [done|].
  cbn [Split]. destruct (Ascii.eqb c (Ascii.ascii_of_nat 59)) eqn:E.
  - apply Ascii.eqb_eq in E as ->.
    pose proof (Split_nonempty s). destruct (Split s) as [|p ps] eqn:Es; [done|].
    cbn [Join] in *. by rewrite IH.
  - pose proof (Split_nonempty s). destruct (Split s) as [|p ps] eqn:Es; [done|].
    destruct ps as [|p' ps]; cbn [Join] in *; by rewrite <- IH.
Qed.

Lemma range_cmds_spec D cmds ran :
  ∃ n, (n ≤ length cmds)%nat ∧
       executed (range_cmds D cmds ran) = ran ++ take n cmds ∧
       (∀ cmd, cmd ∈ take n cmds → PrepareErr D cmd = None ∧ ExecErr D cmd = None) ∧
       match ran_err (range_cmds D cmds ran) with
       | None => n = length cmds ∧ unclosed (range_cmds D cmds ran) = []
       | Some err =>
           ∃ cmd, cmds !! n = Some cmd ∧
                  ((PrepareErr D cmd = Some err ∧ unclosed (range_cmds D cmds ran) = []) ∨
                   (PrepareErr D cmd = None ∧ ExecErr D cmd = Some err ∧
                    unclosed (range_cmds D cmds ran) = [cmd]))
       end.
Proof.
  revert ran. induction cmds as [|cmd cmds IH]; intros ran.
  - exists 0%nat. simpl. rewrite app_nil_r. split; [lia|]. split; [done|]. split; [|done].
    intros c Hc. by apply elem_of_nil in Hc.
  - cbn [range_cmds]. destruct (PrepareErr D cmd) as [e|] eqn:Ep.
    { exists 0%nat. simpl. rewrite app_nil_r. split; [lia|]. split; [done|]. split.
      - intros c Hc. by apply elem_of_nil in Hc.
      - exists cmd. split; [done|]. by left. }
    destruct (ExecErr D cmd) as [e|] eqn:Ee.
    { exists 0%nat. simpl. rewrite app_nil_r. split; [lia|]. split; [done|]. split.
      - intros c Hc. by apply elem_of_nil in Hc.
      - exists cmd. split; [done|]. by right. }
    destruct (IH (ran ++ [cmd])) as (n & Hn & Hex & Hok & Herr).
    exists (S n). split; [simpl; lia|]. split; [|split].
    + rewrite Hex, <- app_assoc. done.
    + intros c [->|Hc]%elem_of_cons; [done | by apply Hok].
    + destruct (ran_err (range_cmds D cmds (ran ++ [cmd]))); simpl; [done|].
      destruct Herr as [-> ?]. done.
Qed.

(** X29: [ExecFrom] splits the file at every [;], so that the pieces joined
    by [;] are the file, and executes the pieces in order up to the first
    one that fails.  It returns nil exactly when it has executed all pieces.
    Otherwise it returns the error of the first piece whose [Prepare] or
    [Exec] fails; the pieces before it stay executed, and a statement whose
    [Exec] fails is left unclosed.  A file that cannot be read executes
    nothing. *)
Theorem ExecFrom_stops_at_first_failure D raw :
  Join (Split raw) = raw ∧
  (∀ err, ExecFrom D (inl err)
          = {| ran_err := Some err; executed := []; unclosed := [] |}) ∧
  ∃ n, (n ≤ length (Split raw))%nat ∧
       executed (ExecFrom D (inr raw)) = take n (Split raw) ∧
       (∀ cmd, cmd ∈ take n (Split raw) → PrepareErr D cmd = None ∧ ExecErr D cmd = None) ∧
       (ran_err (ExecFrom D (inr raw)) = None ↔ n = length (Split raw)) ∧
       ∀ err, ran_err (ExecFrom D (inr raw)) = Some err →
              ∃ cmd, Split raw !! n = Some cmd ∧
                     ((PrepareErr D cmd = Some err ∧ unclosed (ExecFrom D (inr raw)) = []) ∨
                      (PrepareErr D cmd = None ∧ ExecErr D cmd = Some err ∧
                       unclosed (ExecFrom D (inr raw)) = [cmd])).
Proof.
  split; [apply Join_Split|]. split; [done|].
  unfold ExecFrom.
  destruct (range_cmds_spec D (Split raw) []) as (n & Hn & Hex & Hok & Herr).
  exists n. split; [done|]. split; [done|]. split; [done|].
  destruct (ran_err (range_cmds D (Split raw) [])) as [e|].
  - destruct Herr as (cmd & Hcmd & H). split.
    + split; [done|]. intros ->. apply lookup_lt_Some in Hcmd. lia.
    + intros err [= <-]. by exists cmd.
  - destruct Herr as [-> _]. split; [done|]. intros err [=].
Qed.

End ExecFacts.
